(** * is_snyk_for.py: the patch-region matcher

    A shallow embedding of [src/is_snyk_for.py] and the properties of its
    specification.

    - [Py]: the fragment of Python's data model the script relies on:
      exceptions, the values [json.loads] produces, subscription, iteration,
      ordering against an [int], dictionary lookup, generators.
    - [PatchBlocks]: the class of lines 62-113 (the compiled pattern
      [_MATCH_PROG], [_get_blocks], [__init__], [range_exists]).
    - [snyk_results] (lines 116-125) and [main] (lines 128-159).
    - [GithubRepository.from_uri] (lines 30-34), on the path that [urlparse]
      finds in the URL.

    The properties of the specification come first (The claims), then
    further properties read off the code (Further properties).

    Modelling conventions.
    - A Python [str] is a [string]; the scanner indexes it as the list of its
      characters.  The code compares characters only with ['@'], the newline
      and the characters of the pattern, all of them ASCII, so a character
      outside ASCII behaves as any other character that is none of these.
      An [int] is a [Z].
    - An exception is a value [Raise e] of the [result] type; nothing in the
      modelled lines catches one of these exceptions.
    - A generator over in-memory data is the finite sequence [gen] of what it
      yields, ended by exhaustion or by the exception it raises; the consumer
      decides how far it is run.
    - The commit object is taken in the shape the GitHub API gives it
      (a list of files, each with a [filename] and an optional [patch], both
      strings).  The report object is an arbitrary JSON value.
    - [int] accepts a numeral of any length (the interpreter's optional limit
      on the number of digits is not modelled). *)

From Stdlib Require Import ZArith Ascii String Lia.
From Equations Require Import Equations.
From stdpp Require Import base option list strings gmap.

Local Open Scope Z_scope.
Local Set Warnings "-register-all".

(** ** Python values *)

Module Py.

(** The exceptions that the modelled lines can raise or let through.
    [SystemExit] is what [exit(65)] raises in the GitHub collaborator;
    [OtherError] stands for any other exception of the collaborator
    (a transport error, a JSON syntax error, ...). *)
Inductive exn : Type :=
  | KeyError (key : string)
  | TypeError
  | SystemExit (code : Z)
  | OtherError (name : string).

Inductive result (A : Type) : Type :=
  | Ok (a : A)
  | Raise (e : exn).
Global Arguments Ok {A} a.
Global Arguments Raise {A} e.

Global Instance result_ret : MRet result := fun A a => Ok a.
Global Instance result_bind : MBind result := fun A B f m =>
  match m with
  | Ok a => f a
  | Raise e => Raise e
  end.

(** A [float] as [json.loads] can produce it: not-a-number, an infinity, or
    the finite dyadic value [m * 2^e]. *)
Inductive pyfloat : Type :=
  | FNan
  | FInf (negative : bool)
  | FFinite (m e : Z).

(** The values [json.loads] returns.  An object is the list of its items in
    insertion order; lookup takes the first item with the key. *)
Inductive json : Type :=
  | JNull
  | JBool (b : bool)
  | JInt (n : Z)
  | JFloat (f : pyfloat)
  | JStr (s : string)
  | JArr (items : list json)
  | JObj (items : list (string * json)).

Fixpoint assoc (key : string) (items : list (string * json)) : option json :=
  match items with
  | [] => None
  | (k, v) :: items' => if decide (k = key) then Some v else assoc key items'
  end.

(** [v[key]] for a [str] key: only a [dict] can be subscripted by a string. *)
Definition getitem (v : json) (key : string) : result json :=
  match v with
  | JObj items =>
      match assoc key items with
      | Some x => Ok x
      | None => Raise (KeyError key)
      end
  | _ => Raise TypeError
  end.

(** A chain of subscripts [v[k1][k2]...], left to right. *)
Definition subscript (v : result json) (key : string) : result json :=
  v ≫= fun x => getitem x key.

Coercion evaluated (v : json) : result json := Ok v.

Notation "v .[ key ]" := (subscript v key)
  (at level 1, left associativity, format "v .[ key ]") : stdpp_scope.

Fixpoint chars (s : string) : list json :=
  match s with
  | EmptyString => []
  | String c s' => JStr (String c EmptyString) :: chars s'
  end.

(** What [for x in v] iterates over: the elements of a list, the keys of a
    dict, the one-character strings of a string; other values are not
    iterable. *)
Definition iter (v : json) : result (list json) :=
  match v with
  | JArr items => Ok items
  | JObj items => Ok (JStr <$> items.*1)
  | JStr s => Ok (chars s)
  | _ => Raise TypeError
  end.

(** [a <= f] and [f <= b] for an [int] and a [float]: Python compares the
    two exactly; every comparison with a NaN is false. *)
Definition int_le_float (a : Z) (f : pyfloat) : bool :=
  match f with
  | FNan => false
  | FInf negative => negb negative
  | FFinite m e => if 0 <=? e then a <=? m * 2 ^ e else a * 2 ^ (- e) <=? m
  end.

Definition float_le_int (f : pyfloat) (b : Z) : bool :=
  match f with
  | FNan => false
  | FInf negative => negative
  | FFinite m e => if 0 <=? e then m * 2 ^ e <=? b else m <=? b * 2 ^ (- e)
  end.

(** [a <= v] and [v <= b] where [a], [b] are [int]s and [v] is any value:
    numbers (and [bool], a subclass of [int]) are ordered against an [int];
    for any other type the comparison raises [TypeError]. *)
Definition int_le (a : Z) (v : json) : result bool :=
  match v with
  | JInt n => Ok (a <=? n)
  | JBool b => Ok (a <=? (if b then 1 else 0))
  | JFloat f => Ok (int_le_float a f)
  | _ => Raise TypeError
  end.

Definition le_int (v : json) (b : Z) : result bool :=
  match v with
  | JInt n => Ok (n <=? b)
  | JBool c => Ok ((if c then 1 else 0) <=? b)
  | JFloat f => Ok (float_le_int f b)
  | _ => Raise TypeError
  end.

(** Lookup of an arbitrary value in a dict whose keys are all strings
    ([key in d], then [d[key]]): lists and dicts are unhashable, and any
    other value that is not a string is equal to no key. *)
Definition dict_lookup {V : Type} (d : gmap string V) (key : json) : result (option V) :=
  match key with
  | JStr s => Ok (d !! s)
  | JArr _ | JObj _ => Raise TypeError
  | _ => Ok None
  end.

(** A generator run to its end: the values it yields, then [Stop]
    (exhausted) or [Throw e] (an exception escapes its body). *)
Inductive gen (A : Type) : Type :=
  | Stop
  | Yield (a : A) (rest : gen A)
  | Throw (e : exn).
Global Arguments Stop {A}.
Global Arguments Yield {A} a rest.
Global Arguments Throw {A} e.

Fixpoint gen_app {A : Type} (g1 g2 : gen A) : gen A :=
  match g1 with
  | Stop => g2
  | Yield a rest => Yield a (gen_app rest g2)
  | Throw e => Throw e
  end.

(** [for x in <it>: <body x>] inside a generator: [it] is evaluated and
    iterated (either may raise), and the bodies run in order until one
    raises. *)
Definition for_in {A : Type} (it : result json) (body : json -> gen A) : gen A :=
  match it ≫= iter with
  | Ok items => foldr (fun x rest => gen_app (body x) rest) Stop items
  | Raise e => Throw e
  end.

(** The generator that yields the elements of a list and stops. *)
Fixpoint yield_all {A : Type} (l : list A) : gen A :=
  match l with
  | [] => Stop
  | a :: l' => Yield a (yield_all l')
  end.

End Py.
Import Py.

(** ** class PatchBlocks *)

Module PatchBlocks.

Definition LF : ascii := "010"%char.

(** *** The compiled pattern [_MATCH_PROG] *)

(** The pattern uses literal characters and [[0-9]+], plain or as a
    capturing group. *)
Inductive re_item : Type :=
  | Lit (c : ascii)
  | Digits (group : bool).

(** The value of a character of the class [[0-9]] (the code points 48 to
    57), which is also the digit [int] reads in it. *)
Definition digit_value (c : ascii) : option Z :=
  let code := Z.of_N (N_of_ascii c) in
  if (48 <=? code) && (code <=? 57) then Some (code - 48) else None.

Definition is_digit (c : ascii) : bool :=
  match digit_value c with Some _ => true | None => false end.

Fixpoint digit_run (s : list ascii) : nat :=
  match s with
  | c :: s' => if is_digit c then S (digit_run s') else 0%nat
  | [] => 0%nat
  end.

Fixpoint first_some {A : Type} (l : list (option A)) : option A :=
  match l with
  | [] => None
  | Some a :: _ => Some a
  | None :: l' => first_some l'
  end.

(** [re_match p s]: the groups of the match of [p] at the start of [s], as
    [re.match] finds it.  [[0-9]+] is greedy: it first takes the longest run
    of digits and backtracks to shorter ones, down to one digit, while the
    rest of the pattern fails. *)
Fixpoint re_match (p : list re_item) (s : list ascii) : option (list (list ascii)) :=
  match p with
  | [] => Some []
  | Lit c :: p' =>
      match s with
      | c' :: s' => if decide (c = c') then re_match p' s' else None
      | [] => None
      end
  | Digits group :: p' =>
      first_some
        ((fun k =>
            groups ← re_match p' (drop k s);
            Some (if group then take k s :: groups else groups))
           <$> reverse (seq 1 (digit_run s)))
  end.

(** ['@@ -[0-9]+,[0-9]+ \+([0-9]+),([0-9]+) @@'] *)
Definition _MATCH_PROG : list re_item :=
  [Lit "@"; Lit "@"; Lit " "; Lit "-"; Digits false; Lit ","; Digits false;
   Lit " "; Lit "+"; Digits true; Lit ","; Digits true; Lit " "; Lit "@"; Lit "@"].

(** [int(s)] for a string of decimal digits. *)
Definition int (s : list ascii) : Z :=
  foldl (fun acc c => 10 * acc + default 0 (digit_value c)) 0 s.

(** *** [_get_blocks] *)

Definition char_at (patch : list ascii) (i : nat) (c : ascii) : bool :=
  bool_decide (patch !! i = Some c).

(** [patch[lo:hi]] *)
Definition slice (patch : list ascii) (lo hi : nat) : list ascii :=
  take (hi - lo) (drop lo patch).

(** The inner [while] (lines 93-99): [Some j] when it breaks at the closing
    pair [patch[j] == patch[j+1] == '@'], [None] when its condition fails
    first. *)
Equations? find_close (patch : list ascii) (j : nat) : option nat
  by wf (length patch - j)%nat lt :=
  find_close patch j with decide (j + 1 < length patch)%nat => {
    | left _ with char_at patch j "@" && char_at patch (j + 1) "@" => {
        | true := Some j;
        | false := find_close patch (j + 1) };
    | right _ := None }.
Proof. lia. Qed.

Definition inspect {A : Type} (a : A) : {b | a = b} := exist _ a eq_refl.

Definition loop_measure (patch : list ascii) (i : nat) (new_line : bool) : nat :=
  (2 * (length patch - i) + (if new_line then 1 else 0))%nat.

(** The outer [while] (lines 89-107) from the state [(i, new_line)]: the
    blocks it yields, each with the index [i] at which its opening ['@@']
    was read (the index is not part of what the source yields; it is kept
    to state where a block was found). *)
Equations? blocks_from (patch : list ascii) (i : nat) (new_line : bool)
  : list (nat * list ascii) by wf (loop_measure patch i new_line) lt :=
  blocks_from patch i new_line with decide (i + 1 < length patch)%nat => {
    | right _ := [];
    | left _ with new_line => {
        | true with char_at patch i "@" && char_at patch (i + 1) "@" => {
            | true with inspect (find_close patch (i + 2)) => {
                | exist _ (Some j) Hj :=
                    (i, slice patch i (j + 2)) :: blocks_from patch (j + 2) false;
                | exist _ None _ := blocks_from patch i false };
            | false := blocks_from patch (i + 1) false };
        | false with char_at patch i LF => {
            | true := blocks_from patch (i + 1) true;
            | false := blocks_from patch (i + 1) false } } }.
Proof.
  all: unfold loop_measure; try lia.
  (* the inner loop breaks at an index [j >= i + 2] *)
  assert (∀ p m k, find_close p m = Some k -> (m ≤ k)%nat) as Hge.
  { clear. intros p m k. funelim (find_close p m); intros Hk; simplify_eq;
      first [lia | apply H in Hk; lia]. }
  apply Hge in Hj. lia.
Qed.

Definition _get_blocks_at (patch : list ascii) : list (nat * list ascii) :=
  blocks_from patch 0 true.

Definition _get_blocks (patch : list ascii) : list (list ascii) :=
  (_get_blocks_at patch).*2.

(** *** [__init__] and [range_exists] *)

Record t : Type := { _blocks : list (Z * Z) }.

(** Lines 82-84 for one block: the pair to append, if the pattern matches. *)
Definition block_range (block : list ascii) : option (Z * Z) :=
  match re_match _MATCH_PROG block with
  | Some [group1; group2] => Some (int group1, int group2)
  | _ => None
  end.

Definition __init__ (patch : string) : t :=
  {| _blocks := omap block_range (_get_blocks (list_ascii_of_string patch)) |}.

Fixpoint range_exists_in (blocks : list (Z * Z)) (start end_ : json) : result bool :=
  match blocks with
  | [] => Ok false
  | block :: blocks' =>
      (* [block[0] <= start and end <= block[1]]: [and] evaluates its
         right operand only when the left one is true *)
      match int_le block.1 start with
      | Raise e => Raise e
      | Ok false => range_exists_in blocks' start end_
      | Ok true =>
          match le_int end_ block.2 with
          | Raise e => Raise e
          | Ok false => range_exists_in blocks' start end_
          | Ok true => Ok true
          end
      end
  end.

Definition range_exists (self : t) (start end_ : json) : result bool :=
  range_exists_in (_blocks self) start end_.

End PatchBlocks.

(** ** snyk_results *)

(** A finding as the generator yields it: [(filename, (start, end))], each
    component whatever value the report holds there. *)
Definition finding : Type := json * (json * json).

(** Lines 122-125 for one location: the three chains of subscripts, in
    the order the source evaluates them. *)
Definition location_finding (location : json) : result finding :=
  filename ← location.["physicalLocation"].["artifactLocation"].["uri"];
  start ← location.["physicalLocation"].["region"].["startLine"];
  end_ ← location.["physicalLocation"].["region"].["endLine"];
  Ok (filename, (start, end_)).

Definition yield_location (location : json) : gen finding :=
  match location_finding location with
  | Ok f => Yield f Stop
  | Raise e => Throw e
  end.

Definition snyk_results (snyk_report : json) : gen finding :=
  for_in snyk_report.["runs"] (fun run =>
    for_in run.["results"] (fun result =>
      for_in result.["locations"] yield_location)).

(** ** main *)

(** One entry of [commit["files"]]; [patch] is absent for a file that is
    not a text file. *)
Record file : Type := { filename : string; patch : option string }.

(** The commit object, as far as [main] reads it. *)
Record commit : Type := { files : list file }.

(** Line 143: the dict comprehension; a later file with the same name
    replaces an earlier one. *)
Definition commit_files (c : commit) : gmap string PatchBlocks.t :=
  foldl (fun d f =>
           match patch f with
           | Some p => <[filename f := PatchBlocks.__init__ p]> d
           | None => d
           end) ∅ (files c).

(** Lines 153-159: the loop over the findings, run on the generator. *)
Fixpoint main_loop (commit_files : gmap string PatchBlocks.t) (findings : gen finding)
  : result bool :=
  match findings with
  | Stop => Ok true
  | Throw e => Raise e
  | Yield (filename, region) rest =>
      match dict_lookup commit_files filename with
      | Raise e => Raise e
      | Ok None => Ok false
      | Ok (Some blocks) =>
          match PatchBlocks.range_exists blocks region.1 region.2 with
          | Raise e => Raise e
          | Ok false => Ok false
          | Ok true => main_loop commit_files rest
          end
      end
  end.

(** Lines 143-159: what [main] computes from the commit object and the
    report object once it has them. *)
Definition main_decide (c : commit) (snyk_report : json) : result bool :=
  main_loop (commit_files c) (snyk_results snyk_report).

(** The GitHub collaborator (class [GithubRepository], lines 13-59, with
    [json.load] and [json.loads]), represented by what it answers:
    [from_uri] parses the repository URL, [get_commit] fetches and decodes a
    commit, and [get_content_loads gh path] is [json.loads(gh.get_content(path))],
    the decoded content of a file of the repository.  Each may raise;
    [get_commit] and [get_content] raise [SystemExit 65] on an HTTP error. *)
Record github : Type := {
  from_uri : string -> result (string * string);
  get_commit : string * string -> string -> result commit;
  get_content_loads : string * string -> string -> result json
}.

(** [main] (lines 128-159), in a world [w] and with [args_snyk_report] the
    value of the module-level [args.snyk_report].  Line 145 reads that
    global; the parameter [snyk_report] is not used. *)
Definition main (w : github) (args_snyk_report : string)
    (repository commit_hash snyk_report : string) : result bool :=
  gh ← from_uri w repository;
  c ← get_commit w gh commit_hash;
  let commit_files := commit_files c in
  report ← get_content_loads w gh args_snyk_report;
  main_loop commit_files (snyk_results report).

(** * Vocabulary of the specification *)

(** A query range is nested in one of the stored ranges. *)
Definition nested (blocks : list (Z * Z)) (start end_ : Z) : Prop :=
  ∃ r, r ∈ blocks ∧ r.1 ≤ start ∧ end_ ≤ r.2.

Global Instance nested_dec blocks start end_ : Decision (nested blocks start end_).
Proof.
  refine (cast_if (decide (Exists (fun r : Z * Z => r.1 ≤ start ∧ end_ ≤ r.2) blocks)));
    unfold nested; by rewrite <- Exists_exists.
Defined.

(** A finding of the data model: a file path and a range of line numbers. *)
Definition Finding : Type := string * (Z * Z).

(** The finding as [snyk_results] yields it. *)
Definition as_yielded (f : Finding) : finding :=
  (JStr f.1, (JInt f.2.1, JInt f.2.2)).

(** The finding's file is in the changeset and its range is contained. *)
Definition passes (cs : gmap string PatchBlocks.t) (f : Finding) : Prop :=
  ∃ blocks, cs !! f.1 = Some blocks ∧ nested (PatchBlocks._blocks blocks) f.2.1 f.2.2.

Global Instance passes_dec cs f : Decision (passes cs f).
Proof.
  unfold passes. destruct (cs !! f.1) as [blocks|].
  - destruct (decide (nested (PatchBlocks._blocks blocks) f.2.1 f.2.2)) as [Hn|Hn].
    + left. by exists blocks.
    + right. intros (? & [= <-] & ?). done.
  - right. intros (? & [=] & ?).
Defined.

(** A decimal numeral: one or more of the digits 0-9. *)
Definition numeral (d : list ascii) : Prop :=
  d ≠ [] ∧ Forall (fun c => PatchBlocks.is_digit c = true) d.

(** The hunk header [@@ -<oldStart>,<oldCount> +<newStart>,<newCount> @@]. *)
Definition hunk_header (oldStart oldCount newStart newCount : list ascii) : list ascii :=
  ["@"; "@"; " "; "-"]%char ++ oldStart ++ [","%char] ++ oldCount
  ++ [" "; "+"]%char ++ newStart ++ [","%char] ++ newCount ++ [" "; "@"; "@"]%char.

(** The opening ['@@'] at index [i] starts a line of [patch]. *)
Definition line_start (patch : list ascii) (i : nat) : Prop :=
  i = 0%nat ∨ patch !! (i - 1)%nat = Some PatchBlocks.LF.

(** The pair ['@@'] stands at index [j]. *)
Definition pair_at (patch : list ascii) (j : nat) : Prop :=
  patch !! j = Some "@"%char ∧ patch !! (j + 1)%nat = Some "@"%char.

(** What it means for [p] to match a prefix of [s], leaving [rest], with
    the captured [groups]: the language of the pattern, with no reference
    to the order in which a matcher tries the alternatives. *)
Fixpoint matches (p : list PatchBlocks.re_item) (s : list ascii)
    (groups : list (list ascii)) (rest : list ascii) : Prop :=
  match p with
  | [] => groups = [] ∧ rest = s
  | PatchBlocks.Lit c :: p' => ∃ s', s = c :: s' ∧ matches p' s' groups rest
  | PatchBlocks.Digits group :: p' =>
      ∃ d s' groups', numeral d ∧ s = d ++ s' ∧ matches p' s' groups' rest
        ∧ groups = if group then d :: groups' else groups'
  end.

(** The values a generator yields, and the exception that ends it, if any. *)
Fixpoint gen_yields {A : Type} (g : gen A) : list A :=
  match g with
  | Yield a rest => a :: gen_yields rest
  | _ => []
  end.

Fixpoint gen_end {A : Type} (g : gen A) : option exn :=
  match g with
  | Stop => None
  | Yield _ rest => gen_end rest
  | Throw e => Some e
  end.

(** [v] is an object without [key]. *)
Definition lacks (v : json) (key : string) : Prop :=
  ∃ items, v = JObj items ∧ assoc key items = None.

(** One of the keys read in a location is missing. *)
Definition location_lacks_key (location : json) : Prop :=
  lacks location "physicalLocation"
  ∨ ∃ physical, getitem location "physicalLocation" = Ok physical
      ∧ (lacks physical "artifactLocation"
         ∨ lacks physical "region"
         ∨ (∃ artifact, getitem physical "artifactLocation" = Ok artifact
              ∧ lacks artifact "uri")
         ∨ (∃ region, getitem physical "region" = Ok region
              ∧ (lacks region "startLine" ∨ lacks region "endLine"))).

(** The report has the shape [runs -> results -> locations] down to an
    object, on that path, that misses the key read from it. *)
Inductive missing_required_key (report : json) : Prop :=
  | missing_runs :
      lacks report "runs" -> missing_required_key report
  | missing_results runs run :
      getitem report "runs" = Ok (JArr runs) -> run ∈ runs ->
      lacks run "results" -> missing_required_key report
  | missing_locations runs run results result :
      getitem report "runs" = Ok (JArr runs) -> run ∈ runs ->
      getitem run "results" = Ok (JArr results) -> result ∈ results ->
      lacks result "locations" -> missing_required_key report
  | missing_in_location runs run results result locations location :
      getitem report "runs" = Ok (JArr runs) -> run ∈ runs ->
      getitem run "results" = Ok (JArr results) -> result ∈ results ->
      getitem result "locations" = Ok (JArr locations) -> location ∈ locations ->
      location_lacks_key location -> missing_required_key report.

(** ** Reports, patches and worlds used as examples *)

(** A location as the report format has it. *)
Definition location_of (f : Finding) : json :=
  JObj [("physicalLocation",
         JObj [("artifactLocation", JObj [("uri", JStr f.1)]);
               ("region", JObj [("startLine", JInt f.2.1); ("endLine", JInt f.2.2)])])].

(** A report with one run and one result, which has the given locations. *)
Definition report_of (locations : list json) : json :=
  JObj [("runs", JArr [JObj [("results", JArr [JObj [("locations", JArr locations)]])]])].

(** ["@@ -1,2 +1,3 @@" + "\n...\n" + "@@ -10,2 +10,500 @@"] *)
Definition two_hunks : string :=
  "@@ -1,2 +1,3 @@" +:+ String PatchBlocks.LF ("..." +:+ String PatchBlocks.LF "@@ -10,2 +10,500 @@").

(** A changeset with one file, whose patch is [two_hunks]. *)
Definition one_file : commit :=
  {| files := [{| filename := "a.py"; patch := Some two_hunks |}] |}.

(** A world in which the repository URL parses, the commit is [c] and the
    file at [path] decodes to [report_at path]. *)
Definition world (c : commit) (report_at : string -> json) : github :=
  {| from_uri := fun _ => Ok ("OWNER", "REPO");
     get_commit := fun _ _ => Ok c;
     get_content_loads := fun _ path => Ok (report_at path) |}.

(** * Vocabulary of the further properties *)

(** The values Python orders against an [int]. *)
Definition numeric (v : json) : Prop :=
  match v with
  | JInt _ | JBool _ | JFloat _ => True
  | _ => False
  end.

(** Each block starts after the end of the one before it, and at or after
    [lo]: [separated lo blocks]. *)
Fixpoint separated (lo : nat) (blocks : list (nat * list ascii)) : Prop :=
  match blocks with
  | [] => True
  | (i, block) :: blocks' =>
      (lo ≤ i)%nat ∧ separated (i + length block + 1) blocks'
  end.

(** A line of a patch text: a hunk line, ['@@'], [inner], ['@@'] and the
    rest of the line, or any other line. *)
Inductive line : Type :=
  | Hunk (inner tail : list ascii)
  | Other (text : list ascii).

Definition line_text (l : line) : list ascii :=
  match l with
  | Hunk inner tail => ["@"; "@"]%char ++ inner ++ ["@"; "@"]%char ++ tail
  | Other text => text
  end.

(** The block of a hunk line. *)
Definition line_block (l : line) : option (list ascii) :=
  match l with
  | Hunk inner _ => Some (["@"; "@"]%char ++ inner ++ ["@"; "@"]%char)
  | Other _ => None
  end.

(** No ['@'] between the two pairs of a hunk line and no newline after
    them; another line is not empty, has no newline and does not begin
    with ['@@']. *)
Definition line_ok (l : line) : Prop :=
  match l with
  | Hunk inner tail => ("@"%char ∉ inner) ∧ (PatchBlocks.LF ∉ tail)
  | Other text =>
      text ≠ [] ∧ (PatchBlocks.LF ∉ text) ∧ ¬ ∃ t, text = "@"%char :: "@"%char :: t
  end.

(** The lines, with a newline between two of them. *)
Fixpoint join_lines (ls : list line) : list ascii :=
  match ls with
  | [] => []
  | l :: ls' =>
      line_text l ++ match ls' with
                     | [] => []
                     | _ :: _ => PatchBlocks.LF :: join_lines ls'
                     end
  end.

(** A line of a unified diff: a hunk header followed by the rest of its
    line (the section heading), or a line of the body. *)
Inductive diff_line : Type :=
  | Header (oldStart oldCount newStart newCount tail : list ascii)
  | Body (text : list ascii).

Definition as_line (d : diff_line) : line :=
  match d with
  | Header a b c d tail =>
      Hunk ([" "; "-"]%char ++ a ++ [","%char] ++ b
            ++ [" "; "+"]%char ++ c ++ [","%char] ++ d ++ [" "%char]) tail
  | Body text => Other text
  end.

Definition diff_line_ok (d : diff_line) : Prop :=
  match d with
  | Header a b c d tail =>
      numeral a ∧ numeral b ∧ numeral c ∧ numeral d ∧ (PatchBlocks.LF ∉ tail)
  | Body text => line_ok (Other text)
  end.

(** The pair [(newStart, newCount)] of a header line. *)
Definition header_range (d : diff_line) : option (Z * Z) :=
  match d with
  | Header _ _ c d _ => Some (PatchBlocks.int c, PatchBlocks.int d)
  | Body _ => None
  end.

(** What [snyk_results] reads in a report of the expected shape, whatever
    other keys its objects have: the finding of a location, the findings
    of the locations of a result, of the results of a run, of the runs of
    the report. *)
Definition reads_location (location : json) (f : finding) : Prop :=
  ∃ physical artifact region,
    getitem location "physicalLocation" = Ok physical
    ∧ getitem physical "artifactLocation" = Ok artifact
    ∧ getitem artifact "uri" = Ok f.1
    ∧ getitem physical "region" = Ok region
    ∧ getitem region "startLine" = Ok f.2.1
    ∧ getitem region "endLine" = Ok f.2.2.

Definition reads_result (result : json) (fs : list finding) : Prop :=
  ∃ locations,
    getitem result "locations" = Ok (JArr locations)
    ∧ Forall2 reads_location locations fs.

Definition reads_run (run : json) (fss : list (list finding)) : Prop :=
  ∃ results,
    getitem run "results" = Ok (JArr results) ∧ Forall2 reads_result results fss.

Definition reads_report (report : json) (fsss : list (list (list finding))) : Prop :=
  ∃ runs, getitem report "runs" = Ok (JArr runs) ∧ Forall2 reads_run runs fsss.

(** A report with two runs, of one result and one location each. *)
Definition two_runs : json :=
  JObj [("runs",
         JArr [JObj [("results",
                      JArr [JObj [("locations", JArr [location_of ("a.py", (2, 3))])]])];
               JObj [("results",
                      JArr [JObj [("locations", JArr [location_of ("a.py", (4, 9))])]])]])].

(** The patch of the last file of the commit that has the name and a
    patch. *)
Definition last_patch (c : commit) (name : string) : option string :=
  last (omap (fun f => if decide (filename f = name) then patch f else None) (files c)).

(** ** class GithubRepository, [from_uri] *)

Module GithubRepository.

(** [s.split(sep)] for a separator of one character. *)
Fixpoint split (sep : ascii) (s : list ascii) : list (list ascii) :=
  match s with
  | [] => [[]]
  | c :: s' =>
      if decide (c = sep) then [] :: split sep s'
      else match split sep s' with
           | token :: tokens => (c :: token) :: tokens
           | [] => [[c]]
           end
  end.

(** Lines 33-34 on [rc.path], the path that [urlparse] finds in the URL:
    [tokens[1]] and [tokens[2]] of the path split at ['/'], or
    [IndexError]. *)
Definition from_path (path : list ascii) : result (list ascii * list ascii) :=
  let tokens := split "/" path in
  match tokens !! 1%nat with
  | Some owner =>
      match tokens !! 2%nat with
      | Some repo => Ok (owner, repo)
      | None => Raise (OtherError "IndexError")
      end
  | None => Raise (OtherError "IndexError")
  end.

(** [from_uri] (lines 30-34), given the function that [urlparse(_).path]
    computes. *)
Definition from_uri (urlparse_path : string -> list ascii) (github_uri : string)
  : result (list ascii * list ascii) :=
  from_path (urlparse_path github_uri).

End GithubRepository.

(** * Lemmas *)

(** Brings a concatenation to the form [x1 ++ c :: x2 ++ ...]. *)
Ltac normalize_app := repeat (rewrite <- app_assoc; simpl).

(** ** The pattern *)

Section pattern.
Import PatchBlocks.

Lemma first_some_Some {A} (l : list (option A)) a :
  first_some l = Some a -> Some a ∈ l.
Proof.
  induction l as [|[b|] l IH]; simpl; intros H; simplify_eq.
  - left.
  - right. auto.
Qed.

Lemma first_some_is_Some {A} (l : list (option A)) a :
  Some a ∈ l -> is_Some (first_some l).
Proof.
  induction l as [|[b|] l IH]; simpl; intros H.
  - by apply elem_of_nil in H.
  - by eexists.
  - apply elem_of_cons in H as [?|?]; [done|auto].
Qed.

Lemma digit_run_length s : (digit_run s ≤ length s)%nat.
Proof. induction s as [|c s IH]; simpl; [lia|]. destruct (is_digit c); simpl; lia. Qed.

Lemma digit_run_take s k :
  (k ≤ digit_run s)%nat -> Forall (fun c => is_digit c = true) (take k s).
Proof.
  revert k. induction s as [|c s IH]; intros [|k] Hk; simpl in *;
    try constructor; destruct (is_digit c) eqn:Hc; try lia; try done.
  apply IH. lia.
Qed.

Lemma digit_run_app d s :
  Forall (fun c => is_digit c = true) d -> (length d ≤ digit_run (d ++ s))%nat.
Proof. induction 1 as [|c d Hc _ IH]; simpl; [lia|]. rewrite Hc. lia. Qed.

Lemma numeral_take s k :
  (1 ≤ k ≤ digit_run s)%nat -> numeral (take k s).
Proof.
  intros Hk. split; [|apply digit_run_take; lia].
  pose proof (digit_run_length s). intros Hnil.
  apply (f_equal length) in Hnil. rewrite length_take in Hnil. simpl in Hnil. lia.
Qed.

(** The matcher finds only matches ... *)
Lemma re_match_sound p s groups :
  re_match p s = Some groups -> ∃ rest, matches p s groups rest.
Proof.
  revert s groups. induction p as [|[c|group] p IH]; intros s groups; simpl.
  - intros [= <-]. by exists s.
  - destruct s as [|c' s]; [done|]. case_decide; [subst c'|done].
    intros (rest & Hm)%IH. exists rest, s. done.
  - intros Hf%first_some_Some.
    apply list_elem_of_fmap in Hf as (k & Hk & Hin).
    rewrite elem_of_reverse, elem_of_seq in Hin.
    destruct (re_match p (drop k s)) as [groups'|] eqn:Hp; simplify_eq/=.
    apply IH in Hp as (rest & Hm).
    exists rest, (take k s), (drop k s), groups'.
    split; [apply numeral_take; lia|].
    by rewrite take_drop.
Qed.

(** ... and finds one whenever there is one. *)
Lemma re_match_complete p s groups rest :
  matches p s groups rest -> is_Some (re_match p s).
Proof.
  revert s groups. induction p as [|[c|group] p IH]; intros s groups; simpl.
  - by eexists.
  - intros (s' & -> & Hm). rewrite decide_True by done. eauto.
  - intros (d & s' & groups' & [Hne Hd] & -> & Hm & _).
    destruct (IH _ _ Hm) as [groups'' Hp].
    eapply first_some_is_Some, list_elem_of_fmap.
    exists (length d). rewrite drop_app_length, Hp. split; [done|].
    rewrite elem_of_reverse, elem_of_seq.
    pose proof (digit_run_app d s' Hd). destruct d; [done|]. simpl in *. lia.
Qed.

(** A numeral followed by a character that is not a digit can be split
    off in one way only. *)
Lemma numeral_split_unique d1 d2 c s1 s2 :
  is_digit c = false ->
  Forall (fun c => is_digit c = true) d1 ->
  Forall (fun c => is_digit c = true) d2 ->
  d1 ++ c :: s1 = d2 ++ c :: s2 -> d1 = d2 ∧ s1 = s2.
Proof.
  intros Hc Hd1. revert d2. induction Hd1 as [|x d1 Hx _ IH]; intros d2 Hd2 Heq.
  - destruct Hd2 as [|y d2 Hy _]; simplify_eq/=; [done|congruence].
  - destruct Hd2 as [|y d2 Hy Hd2]; simplify_eq/=; [congruence|].
    destruct (IH _ Hd2 ltac:(done)) as [-> ->]. done.
Qed.

(** The matches of [_MATCH_PROG] are the strings that start with a hunk
    header, the groups being its third and fourth numerals. *)
Lemma matches_MATCH_PROG s groups rest :
  matches _MATCH_PROG s groups rest
  ↔ ∃ a b c d, numeral a ∧ numeral b ∧ numeral c ∧ numeral d
      ∧ s = hunk_header a b c d ++ rest ∧ groups = [c; d].
Proof.
  unfold _MATCH_PROG, hunk_header. simpl. split.
  - intros (? & -> & ? & -> & ? & -> & ? & -> & a & ? & ? & Ha & -> & (? & -> &
      b & ? & ? & Hb & -> & (? & -> & ? & -> & c & ? & ? & Hc & -> & (? & -> &
      d & ? & ? & Hd & -> & (? & -> & ? & -> & ? & -> & -> & ->) & ->) & ->) & ->) & ->).
    exists a, b, c, d. split_and!; try done.
    by normalize_app.
  - intros (a & b & c & d & Ha & Hb & Hc & Hd & -> & ->). normalize_app.
    do 4 (eexists; split; [done|]).
    exists a; do 2 eexists. split; [done|]. split; [done|]. split; [|done].
    eexists; split; [done|].
    exists b; do 2 eexists. split; [done|]. split; [done|]. split; [|done].
    do 2 (eexists; split; [done|]).
    exists c; do 2 eexists. split; [done|]. split; [done|]. split; [|done].
    eexists; split; [done|].
    exists d; do 2 eexists. split; [done|]. split; [done|]. split; [|done].
    do 3 (eexists; split; [done|]). done.
Qed.

Lemma hunk_header_unique a b c d rest a' b' c' d' rest' :
  numeral a -> numeral b -> numeral c -> numeral d ->
  numeral a' -> numeral b' -> numeral c' -> numeral d' ->
  hunk_header a b c d ++ rest = hunk_header a' b' c' d' ++ rest' ->
  a = a' ∧ b = b' ∧ c = c' ∧ d = d' ∧ rest = rest'.
Proof.
  intros [_ Ha] [_ Hb] [_ Hc] [_ Hd] [_ Ha'] [_ Hb'] [_ Hc'] [_ Hd'].
  unfold hunk_header. normalize_app. intros [= Heq].
  apply numeral_split_unique in Heq as [<- Heq]; [|done..]. simpl in Heq.
  apply numeral_split_unique in Heq as [<- [= Heq]]; [|done..].
  apply numeral_split_unique in Heq as [<- Heq]; [|done..].
  apply numeral_split_unique in Heq as [<- [= Heq]]; [|done..].
  done.
Qed.

(** [_MATCH_PROG.match(s)] succeeds exactly on the strings that start with
    a hunk header, and its two groups are [newStart] and [newCount]. *)
Lemma re_match_MATCH_PROG s groups :
  re_match _MATCH_PROG s = Some groups
  ↔ ∃ a b c d rest, numeral a ∧ numeral b ∧ numeral c ∧ numeral d
      ∧ s = hunk_header a b c d ++ rest ∧ groups = [c; d].
Proof.
  split.
  - intros (rest & Hm)%re_match_sound.
    apply matches_MATCH_PROG in Hm as (a & b & c & d & ?). by exists a, b, c, d, rest.
  - intros (a & b & c & d & rest & Ha & Hb & Hc & Hd & -> & ->).
    assert (matches _MATCH_PROG (hunk_header a b c d ++ rest) [c; d] rest) as Hm.
    { apply matches_MATCH_PROG. by exists a, b, c, d. }
    destruct (re_match_complete _ _ _ _ Hm) as [groups Hg]. rewrite Hg. f_equal.
    apply re_match_sound in Hg as (rest' & Hm').
    apply matches_MATCH_PROG in Hm'
      as (a' & b' & c' & d' & Ha' & Hb' & Hc' & Hd' & Heq & ->).
    apply hunk_header_unique in Heq as (_ & _ & -> & -> & _); done.
Qed.

Lemma digit_value_nonneg c : 0 ≤ default 0 (digit_value c).
Proof.
  destruct (digit_value c) as [v|] eqn:Hv; simpl; [|done].
  unfold digit_value in Hv. repeat case_match; simplify_eq; lia.
Qed.

Lemma int_from_nonneg s acc :
  0 ≤ acc -> 0 ≤ foldl (fun acc c => 10 * acc + default 0 (digit_value c)) acc s.
Proof.
  revert acc. induction s as [|c s IH]; intros acc Hacc; simpl; [done|].
  apply IH. pose proof (digit_value_nonneg c). lia.
Qed.

Lemma int_nonneg s : 0 ≤ int s.
Proof. by apply int_from_nonneg. Qed.

(** Lines 82-84 on a block: the pair is appended exactly when the block
    starts with a hunk header, and it is [(int newStart, int newCount)]. *)
Lemma block_range_Some block r :
  block_range block = Some r
  ↔ ∃ a b c d rest, numeral a ∧ numeral b ∧ numeral c ∧ numeral d
      ∧ block = hunk_header a b c d ++ rest ∧ r = (int c, int d).
Proof.
  unfold block_range. split.
  - destruct (re_match _MATCH_PROG block) as [groups|] eqn:Hm; [|done].
    apply re_match_MATCH_PROG in Hm as (a & b & c & d & rest & ? & ? & ? & ? & ? & ->).
    intros [= <-]. by exists a, b, c, d, rest.
  - intros (a & b & c & d & rest & Ha & Hb & Hc & Hd & -> & ->).
    assert (re_match _MATCH_PROG (hunk_header a b c d ++ rest) = Some [c; d]) as ->; [|done].
    apply re_match_MATCH_PROG. by exists a, b, c, d, rest.
Qed.
End pattern.

(** ** The scanner *)

Section scanner.
Import PatchBlocks.

Lemma find_close_range patch j k :
  find_close patch j = Some k -> (j <= k /\ k + 1 < length patch)%nat.
Proof.
  funelim (find_close patch j); intros Hk; simplify_eq;
    first [lia | apply H in Hk; lia].
Qed.

Lemma char_at_pair patch j :
  char_at patch j "@" && char_at patch (j + 1) "@" = true ↔ pair_at patch j.
Proof.
  unfold char_at, pair_at.
  rewrite andb_true_iff, !bool_decide_eq_true. done.
Qed.

(** The inner loop stops at the first closing pair at or after [j]. *)
Lemma find_close_Some patch j k :
  find_close patch j = Some k ->
  (j ≤ k)%nat ∧ pair_at patch k ∧ ∀ m, (j ≤ m < k)%nat -> ¬ pair_at patch m.
Proof.
  funelim (find_close patch j); intros Hk; simplify_eq.
  - split; [lia|]. split; [by apply char_at_pair|]. intros m Hm. lia.
  - destruct (H _ Hk) as (Hle & Hpair & Hmin).
    split; [lia|]. split; [done|]. intros m Hm.
    destruct (decide (m = j)) as [->|Hne]; [|apply Hmin; lia].
    rewrite <- char_at_pair. by rewrite Heq.
Qed.

(** Where the scanner yields a block: at an index that starts a line and
    holds the opening pair; the block runs to the first closing pair
    after it. *)
Lemma blocks_from_elem patch i new_line k block :
  (new_line = true -> line_start patch i) ->
  (k, block) ∈ blocks_from patch i new_line ->
  (i ≤ k)%nat ∧ line_start patch k ∧ pair_at patch k
  ∧ ∃ j, find_close patch (k + 2) = Some j ∧ block = slice patch k (j + 2).
Proof.
  revert k block.
  funelim (blocks_from patch i new_line); intros k block Hstart Hin.
  - by apply elem_of_nil in Hin.
  - destruct (H k block) as (? & ?); [done..|]. split; [lia|done].
  - apply elem_of_cons in Hin as [[= -> ->]|Hin].
    + split; [lia|]. split; [auto|]. split; [by apply char_at_pair|]. eauto.
    + destruct (H k block) as (? & ?); [done..|].
      pose proof (find_close_range _ _ _ Hj). split; [lia|done].
  - destruct (H k block) as (? & ?); [done..|]. split; [lia|done].
  - destruct (H k block) as (? & ?); [|done|split; [lia|done]].
    intros _. right. replace (i + 1 - 1)%nat with i by lia.
    unfold char_at in Heq. by apply bool_decide_eq_true in Heq.
  - destruct (H k block) as (? & ?); [done..|]. split; [lia|done].
Qed.

Lemma _get_blocks_at_elem patch k block :
  (k, block) ∈ _get_blocks_at patch ->
  line_start patch k ∧ pair_at patch k
  ∧ ∃ j, find_close patch (k + 2) = Some j ∧ block = slice patch k (j + 2).
Proof.
  intros Hin. apply blocks_from_elem in Hin as (_ & ?); [done|]. by left.
Qed.
Lemma slice_lookup patch lo hi m :
  (m < hi - lo)%nat -> slice patch lo hi !! m = patch !! (lo + m)%nat.
Proof. intros Hm. unfold slice. by rewrite lookup_take_lt, lookup_drop. Qed.

Lemma slice_length patch lo hi :
  (hi ≤ length patch)%nat -> length (slice patch lo hi) = (hi - lo)%nat.
Proof. intros Hhi. unfold slice. rewrite length_take, length_drop. lia. Qed.

Lemma hunk_header_end a b c d :
  ∃ body, hunk_header a b c d = body ++ ["@"; "@"]%char ∧ (2 ≤ length body)%nat.
Proof.
  exists (["@"; "@"; " "; "-"]%char ++ a ++ [","%char] ++ b
          ++ [" "; "+"]%char ++ c ++ [","%char] ++ d ++ [" "%char]).
  split; [unfold hunk_header; by normalize_app|]. simpl. lia.
Qed.

(** A yielded block ends at the first closing pair, so one that starts
    with a hunk header is that header and nothing more. *)
Lemma yielded_header_exact patch k block a b c d rest :
  (k, block) ∈ _get_blocks_at patch ->
  block = hunk_header a b c d ++ rest -> rest = [].
Proof.
  intros Hin Heq.
  apply _get_blocks_at_elem in Hin as (_ & _ & j & Hj & Hblock).
  pose proof (find_close_range _ _ _ Hj) as [_ Hlen].
  apply find_close_Some in Hj as (Hle & _ & Hmin).
  destruct (hunk_header_end a b c d) as (body & Hbody & Hlen2).
  assert (length block = (j + 2 - k)%nat) as Hbl
    by (rewrite Hblock; apply slice_length; lia).
  rewrite Heq, Hbody, !length_app in Hbl. simpl in Hbl.
  assert (pair_at patch (k + length body)) as Hpair.
  { unfold pair_at.
    replace (k + length body + 1)%nat with (k + (length body + 1))%nat by lia.
    rewrite <- !(slice_lookup patch k (j + 2)) by lia.
    rewrite <- Hblock, Heq, Hbody, <- app_assoc.
    split; rewrite lookup_app_r by lia.
    - by replace (length body - length body)%nat with 0%nat by lia.
    - by replace (length body + 1 - length body)%nat with 1%nat by lia. }
  destruct (decide (k + length body < j)%nat) as [Hlt|Hge].
  - destruct (Hmin (k + length body)%nat); [lia|done].
  - apply length_zero_iff_nil. lia.
Qed.
(** The inner loop finds the first closing pair, when there is one. *)
Lemma find_close_first patch j k :
  (j ≤ k)%nat -> (k + 1 < length patch)%nat -> pair_at patch k ->
  (∀ m, (j ≤ m < k)%nat -> ¬ pair_at patch m) ->
  find_close patch j = Some k.
Proof.
  funelim (find_close patch j); intros Hle Hlen Hpair Hmin.
  - lia.
  - f_equal. destruct (decide (j = k)) as [|Hne]; [done|].
    destruct (Hmin j); [lia|by apply char_at_pair].
  - apply H; [|done..|intros m Hm; apply Hmin; lia].
    destruct (decide (j = k)) as [->|Hne]; [|lia].
    apply char_at_pair in Hpair. congruence.
Qed.

(** One turn of the outer loop at the start of a line that holds an opening
    pair with a closing pair after it. *)
Lemma blocks_from_yield patch i j :
  (i + 1 < length patch)%nat -> pair_at patch i ->
  find_close patch (i + 2) = Some j ->
  blocks_from patch i true
  = (i, slice patch i (j + 2)) :: blocks_from patch (j + 2) false.
Proof.
  intros Hlen Hpair Hclose. remember true as new_line eqn:Hnl.
  funelim (blocks_from patch i new_line); try done.
  - apply char_at_pair in Hpair. congruence.
  - congruence.
  - congruence.
Qed.

(** A patch that begins with ['@@'], then characters other than ['@'],
    then ['@@']: that region is the first block. *)
Lemma _get_blocks_at_first inner rest :
  Forall (fun x => x ≠ "@"%char) inner ->
  ∃ more, _get_blocks_at ("@"%char :: "@"%char :: inner ++ "@"%char :: "@"%char :: rest)
          = (0%nat, "@"%char :: "@"%char :: inner ++ ["@"; "@"]%char) :: more.
Proof.
  intros Hinner.
  set (patch := "@"%char :: "@"%char :: inner ++ "@"%char :: "@"%char :: rest).
  assert (length patch = (length inner + 4 + length rest)%nat) as Hlen
    by (unfold patch; simpl; rewrite length_app; simpl; lia).
  assert (pair_at patch (length inner + 2)) as Hpair.
  { unfold pair_at, patch.
    replace (length inner + 2)%nat with (S (S (length inner))) by lia. simpl.
    rewrite !lookup_app_r by lia.
    replace (length inner - length inner)%nat with 0%nat by lia.
    by replace (length inner + 1 - length inner)%nat with 1%nat by lia. }
  exists (blocks_from patch (length inner + 2 + 2) false).
  unfold _get_blocks_at.
  rewrite (blocks_from_yield patch 0 (length inner + 2)).
  - do 2 f_equal. unfold slice, patch. rewrite drop_0.
    replace (length inner + 2 + 2 - 0)%nat with (S (S (length inner + 2))) by lia.
    simpl. do 2 f_equal.
    replace (length inner + 2)%nat with (length (inner ++ ["@"; "@"]%char))
      by (rewrite length_app; simpl; lia).
    change ("@"%char :: "@"%char :: rest) with (["@"; "@"]%char ++ rest).
    rewrite app_assoc. apply take_app_length.
  - lia.
  - done.
  - apply find_close_first; [lia|lia|done|].
    intros m Hm [Hm1 _]. unfold patch in Hm1.
    destruct m as [|[|m]]; [lia..|]. simpl in Hm1.
    rewrite lookup_app_l in Hm1 by lia.
    apply list_elem_of_lookup_2 in Hm1.
    by eapply Forall_forall in Hinner.
Qed.

(** A patch that begins with a hunk header: the header is the first block. *)
Lemma _get_blocks_at_header a b c d rest :
  numeral a -> numeral b -> numeral c -> numeral d ->
  ∃ more, _get_blocks_at (hunk_header a b c d ++ rest)
          = (0%nat, hunk_header a b c d) :: more.
Proof.
  intros [_ Ha] [_ Hb] [_ Hc] [_ Hd].
  assert (∀ n, Forall (fun x => is_digit x = true) n
               -> Forall (fun x => x ≠ "@"%char) n) as Hn.
  { intros n Hdigits. eapply Forall_impl; [done|]. by intros x Hx ->. }
  destruct (_get_blocks_at_first
              ([" "; "-"]%char ++ a ++ [","%char] ++ b
               ++ [" "; "+"]%char ++ c ++ [","%char] ++ d ++ [" "%char]) rest)
    as [more Hmore].
  { repeat (apply Forall_app; split); auto; by repeat constructor. }
  exists more. unfold hunk_header. revert Hmore. normalize_app. done.
Qed.
End scanner.

(** ** range_exists *)

Section range_exists.
Import PatchBlocks.

Lemma range_exists_in_int blocks (start end_ : Z) :
  range_exists_in blocks (JInt start) (JInt end_)
  = Ok (bool_decide (nested blocks start end_)).
Proof.
  induction blocks as [|[lo hi] blocks IH]; cbn [range_exists_in int_le le_int fst snd].
  - rewrite bool_decide_eq_false_2; [done|].
    intros (r & Hr & _). by apply elem_of_nil in Hr.
  - destruct (Z.leb_spec lo start) as [Hlo|Hlo];
      [destruct (Z.leb_spec end_ hi) as [Hhi|Hhi]|].
    + rewrite bool_decide_eq_true_2; [done|].
      exists (lo, hi). split; [left|done].
    + rewrite IH. f_equal. apply bool_decide_ext. unfold nested.
      split; intros (r & Hr & Hn); exists r.
      * split; [by right|done].
      * apply elem_of_cons in Hr as [->|Hr]; [simpl in Hn; lia|done].
    + rewrite IH. f_equal. apply bool_decide_ext. unfold nested.
      split; intros (r & Hr & Hn); exists r.
      * split; [by right|done].
      * apply elem_of_cons in Hr as [->|Hr]; [simpl in Hn; lia|done].
Qed.

Lemma range_exists_int self (start end_ : Z) :
  range_exists self (JInt start) (JInt end_)
  = Ok (bool_decide (nested (_blocks self) start end_)).
Proof. apply range_exists_in_int. Qed.
End range_exists.

(** ** The loop of main over findings of the data model *)

Lemma main_loop_yielded cs (f : Finding) (rest : gen finding) :
  main_loop cs (Yield (as_yielded f) rest)
  = if bool_decide (passes cs f) then main_loop cs rest else Ok false.
Proof.
  destruct f as [name [s e]].
  cbn [main_loop as_yielded dict_lookup fst snd].
  destruct (decide (passes cs (name, (s, e)))) as [(blocks & Hcs & Hn)|Hf];
    simpl in *.
  - rewrite bool_decide_eq_true_2 by (by exists blocks).
    rewrite Hcs, range_exists_int, bool_decide_eq_true_2; done.
  - rewrite bool_decide_eq_false_2 by done.
    destruct (cs !! name) as [blocks|] eqn:Hcs; [|done].
    rewrite range_exists_int, bool_decide_eq_false_2; [done|].
    intros Hn. apply Hf. by exists blocks.
Qed.

Lemma main_loop_app_yielded cs (fs : list Finding) (g : gen finding) :
  main_loop cs (gen_app (yield_all (as_yielded <$> fs)) g)
  = if bool_decide (Forall (passes cs) fs) then main_loop cs g else Ok false.
Proof.
  induction fs as [|f fs IH].
  - by rewrite bool_decide_eq_true_2.
  - change (gen_app (yield_all (as_yielded <$> f :: fs)) g)
      with (Yield (as_yielded f) (gen_app (yield_all (as_yielded <$> fs)) g)).
    rewrite main_loop_yielded, IH.
    destruct (decide (passes cs f)) as [Hf|Hf].
    + rewrite (bool_decide_eq_true_2 _ Hf).
      apply (f_equal (fun b : bool => if b then _ else _)), bool_decide_ext.
      rewrite Forall_cons. tauto.
    + rewrite (bool_decide_eq_false_2 _ Hf), bool_decide_eq_false_2; [done|].
      rewrite Forall_cons. tauto.
Qed.

Lemma gen_app_stop {A} (g : gen A) : gen_app g Stop = g.
Proof. induction g; simpl; congruence. Qed.

Lemma main_loop_all_yielded cs (fs : list Finding) :
  main_loop cs (yield_all (as_yielded <$> fs))
  = Ok (bool_decide (Forall (passes cs) fs)).
Proof.
  rewrite <- (gen_app_stop (yield_all _)), main_loop_app_yielded.
  by destruct (bool_decide _).
Qed.

(** ** main, from its reads to the loop *)

(** Once the repository URL is parsed and the two reads have answered,
    [main] returns what lines 143-159 compute from the two answers: what is
    proved of [main_decide] holds of [main] in every such run. *)
Lemma main_after_its_reads (w : github)
    (args_snyk_report repository commit_hash snyk_report : string)
    (gh : string * string) (c : commit) (report : json) :
  from_uri w repository = Ok gh ->
  get_commit w gh commit_hash = Ok c ->
  get_content_loads w gh args_snyk_report = Ok report ->
  main w args_snyk_report repository commit_hash snyk_report = main_decide c report.
Proof.
  intros Huri Hcommit Hreport. unfold main, main_decide.
  rewrite Huri. simpl. rewrite Hcommit. simpl. by rewrite Hreport.
Qed.

(** ** The generator run by the loop *)

Lemma gen_end_app {A} (g1 g2 : gen A) :
  gen_end (gen_app g1 g2)
  = match gen_end g1 with Some e => Some e | None => gen_end g2 end.
Proof. induction g1; simpl; auto. Qed.

Lemma gen_end_for_in {A} (items : list json) (body : json -> gen A) x :
  x ∈ items -> is_Some (gen_end (body x)) ->
  is_Some (gen_end (foldr (fun x rest => gen_app (body x) rest) Stop items)).
Proof.
  intros Hx Hend. induction items as [|y items IH]; [by apply elem_of_nil in Hx|].
  simpl. rewrite gen_end_app.
  apply elem_of_cons in Hx as [<-|Hx].
  - destruct Hend as [e ->]. by eexists.
  - destruct (gen_end (body y)); [by eexists|auto].
Qed.

(** The loop on a generator: the verdict on what is yielded decides, and
    the exception that ends the generator comes out only if every finding
    yielded before it passed. *)
Lemma main_loop_split cs (g : gen finding) :
  main_loop cs g
  = match main_loop cs (yield_all (gen_yields g)) with
    | Ok true => match gen_end g with Some e => Raise e | None => Ok true end
    | r => r
    end.
Proof.
  induction g as [|[filename region] rest IH|e]; simpl; [done| |done].
  destruct (dict_lookup cs filename) as [[blocks|]|]; [|done..].
  destruct (PatchBlocks.range_exists blocks region.1 region.2) as [[]|]; done.
Qed.

(** ** A report that misses a required key *)

Lemma getitem_lacks v key : lacks v key -> getitem v key = Raise (KeyError key).
Proof. intros (items & -> & Hk). simpl. by rewrite Hk. Qed.

Lemma location_finding_lacks location :
  location_lacks_key location -> ∃ e, location_finding location = Raise e.
Proof.
  unfold location_finding, subscript, evaluated.
  intros [H|(physical & Hp & H)]; simpl.
  - rewrite (getitem_lacks _ _ H). by eexists.
  - rewrite Hp. simpl.
    destruct H as [H|[H|[(artifact & Ha & H)|(region & Hr & [H|H])]]].
    + rewrite (getitem_lacks _ _ H). by eexists.
    + rewrite (getitem_lacks _ _ H).
      destruct (getitem physical "artifactLocation" ≫= _); by eexists.
    + rewrite Ha. simpl. rewrite (getitem_lacks _ _ H). by eexists.
    + rewrite Hr. simpl. rewrite (getitem_lacks _ _ H).
      destruct (getitem physical "artifactLocation" ≫= _); by eexists.
    + rewrite Hr. simpl. rewrite (getitem_lacks _ _ H).
      destruct (getitem physical "artifactLocation" ≫= _); simpl; [|by eexists].
      destruct (getitem region "startLine"); by eexists.
Qed.

(** Run to its end on such a report, the generator raises. *)
Lemma snyk_results_raises report :
  missing_required_key report -> is_Some (gen_end (snyk_results report)).
Proof.
  unfold snyk_results, for_in, subscript, evaluated.
  destruct 1 as [H|runs run Hruns Hrun H|runs run results result Hruns Hrun Hresults Hresult H
                |runs run results result locations location
                   Hruns Hrun Hresults Hresult Hlocations Hlocation H]; simpl.
  - rewrite (getitem_lacks _ _ H). by eexists.
  - rewrite Hruns. simpl. eapply gen_end_for_in; [done|].
    simpl. rewrite (getitem_lacks _ _ H). by eexists.
  - rewrite Hruns. simpl. eapply gen_end_for_in; [done|].
    simpl. rewrite Hresults. simpl. eapply gen_end_for_in; [done|].
    simpl. rewrite (getitem_lacks _ _ H). by eexists.
  - rewrite Hruns. simpl. eapply gen_end_for_in; [done|].
    simpl. rewrite Hresults. simpl. eapply gen_end_for_in; [done|].
    simpl. rewrite Hlocations. simpl. eapply gen_end_for_in; [done|].
    unfold yield_location.
    destruct (location_finding_lacks _ H) as [e ->]. by eexists.
Qed.

(** ** Examples *)

(** Every finite sequence of findings is what some report yields. *)
Lemma snyk_results_report_of (fs : list Finding) :
  snyk_results (report_of (location_of <$> fs)) = yield_all (as_yielded <$> fs).
Proof.
  unfold snyk_results, report_of, for_in, subscript, evaluated. simpl.
  rewrite !gen_app_stop.
  induction fs as [|f fs IH]; [done|].
  rewrite !fmap_cons. cbn [foldr yield_all]. by rewrite IH.
Qed.

Example two_hunks_blocks :
  PatchBlocks._get_blocks_at (list_ascii_of_string two_hunks)
  = [(0%nat, list_ascii_of_string "@@ -1,2 +1,3 @@");
     (20%nat, list_ascii_of_string "@@ -10,2 +10,500 @@")].
Proof. vm_compute. reflexivity. Qed.

(** A header in the middle of a line is not read. *)
Example header_inside_a_line :
  PatchBlocks._blocks (PatchBlocks.__init__ "x@@ -1,2 +3,4 @@") = [].
Proof. vm_compute. reflexivity. Qed.

(** Neither is a header on the line after an empty line: the scanner reads
    the newline that ends the empty line as the first character of a line,
    and that clears [new_line]. *)
Example header_after_an_empty_line :
  PatchBlocks._blocks
    (PatchBlocks.__init__ (String PatchBlocks.LF "@@ -1,2 +3,4 @@")) = [].
Proof. vm_compute. reflexivity. Qed.

Lemma one_file_blocks :
  commit_files one_file !! "a.py"
  = Some {| PatchBlocks._blocks := [(1, 3); (10, 500)] |}.
Proof. vm_compute. reflexivity. Defined.

Example parse_one :
  PatchBlocks._blocks (PatchBlocks.__init__ "@@ -1,5 +10,20 @@") = [(10, 20)].
Proof. vm_compute. reflexivity. Qed.

(** [main] in a world where the commit is [one_file] and the report names
    lines 2-3 of [a.py]. *)
Example main_on_one_file :
  main (world one_file (fun _ => report_of [location_of ("a.py", (2, 3))]))
    "report.json" "https://github.com/OWNER/REPO" "abc" "report.json"
  = Ok true.
Proof. vm_compute. reflexivity. Qed.

(** * The claims *)

(** C1.  For every patch text, the ranges [__init__] stores are exactly the
    pairs [(newStart, newCount)] of the blocks that are hunk headers
    [@@ -oldStart,oldCount +newStart,newCount @@]: each such block
    contributes [(int newStart, int newCount)], the end field being the
    count itself with nothing added, and nothing else is stored.  A patch
    that begins with a hunk header has that pair as its first range, and
    the patch ["@@ -1,5 +10,20 @@"] yields the one range [(10, 20)]. *)
Theorem stored_range_is_newStart_newCount (patch : string) :
  (∀ a b c d, numeral a -> numeral b -> numeral c -> numeral d ->
     hunk_header a b c d ∈ PatchBlocks._get_blocks (list_ascii_of_string patch) ->
     (PatchBlocks.int c, PatchBlocks.int d)
       ∈ PatchBlocks._blocks (PatchBlocks.__init__ patch))
  ∧ (∀ r, r ∈ PatchBlocks._blocks (PatchBlocks.__init__ patch) ->
       ∃ a b c d, numeral a ∧ numeral b ∧ numeral c ∧ numeral d
         ∧ hunk_header a b c d ∈ PatchBlocks._get_blocks (list_ascii_of_string patch)
         ∧ r = (PatchBlocks.int c, PatchBlocks.int d))
  ∧ (∀ a b c d rest, numeral a -> numeral b -> numeral c -> numeral d ->
       list_ascii_of_string patch = hunk_header a b c d ++ rest ->
       ∃ more, PatchBlocks._blocks (PatchBlocks.__init__ patch)
               = (PatchBlocks.int c, PatchBlocks.int d) :: more)
  ∧ PatchBlocks._blocks (PatchBlocks.__init__ "@@ -1,5 +10,20 @@") = [(10, 20)].
Proof.
  split_and!.
  - intros a b c d Ha Hb Hc Hd Hin. simpl.
    apply list_elem_of_omap. exists (hunk_header a b c d). split; [done|].
    apply block_range_Some. exists a, b, c, d, []. by rewrite app_nil_r.
  - intros r Hr. simpl in Hr.
    apply list_elem_of_omap in Hr as (block & Hin & Hr).
    apply block_range_Some in Hr as (a & b & c & d & rest & Ha & Hb & Hc & Hd & Hblock & ->).
    exists a, b, c, d. split_and!; try done.
    unfold PatchBlocks._get_blocks in *.
    apply list_elem_of_fmap in Hin as ([k block'] & -> & Hin). simpl in Hblock.
    pose proof (yielded_header_exact _ _ _ _ _ _ _ _ Hin Hblock) as ->.
    rewrite app_nil_r in Hblock. subst block'.
    apply list_elem_of_fmap. by exists (k, hunk_header a b c d).
  - intros a b c d rest Ha Hb Hc Hd Hpatch.
    destruct (_get_blocks_at_header a b c d rest) as [more Hmore]; [done..|].
    exists (omap PatchBlocks.block_range more.*2).
    unfold PatchBlocks.__init__, PatchBlocks._get_blocks. cbn [PatchBlocks._blocks].
    rewrite Hpatch, Hmore, fmap_cons. cbn [omap list_omap snd].
    assert (PatchBlocks.block_range (hunk_header a b c d)
            = Some (PatchBlocks.int c, PatchBlocks.int d)) as ->; [|done].
    apply block_range_Some. exists a, b, c, d, []. by rewrite app_nil_r.
  - vm_compute. reflexivity.
Qed.

(** C2.  For an index and integers [start], [end], [range_exists] returns
    true if and only if one stored range [r] has [r.start <= start] and
    [end <= r.end], and false otherwise; on an index with no range it
    returns false for every query. *)
Theorem range_exists_iff_nested_in_one (self : PatchBlocks.t) (start end_ : Z) :
  (PatchBlocks.range_exists self (JInt start) (JInt end_) = Ok true
   ↔ ∃ r, r ∈ PatchBlocks._blocks self ∧ r.1 ≤ start ∧ end_ ≤ r.2)
  ∧ (PatchBlocks.range_exists self (JInt start) (JInt end_) = Ok false
     ↔ ¬ ∃ r, r ∈ PatchBlocks._blocks self ∧ r.1 ≤ start ∧ end_ ≤ r.2)
  ∧ (∀ s e : json,
       PatchBlocks.range_exists {| PatchBlocks._blocks := [] |} s e = Ok false).
Proof.
  rewrite range_exists_int. fold (nested (PatchBlocks._blocks self) start end_).
  split; [|split].
  - split; [intros [= H]; by apply bool_decide_eq_true in H|].
    intros H. by rewrite bool_decide_eq_true_2.
  - split; [intros [= H]; by apply bool_decide_eq_false in H|].
    intros H. by rewrite bool_decide_eq_false_2.
  - done.
Qed.

(** An overlap is not a nesting. *)
Example overlap_is_not_nesting :
  PatchBlocks.range_exists {| PatchBlocks._blocks := [(10, 20)] |} (JInt 5) (JInt 15)
  = Ok false.
Proof. reflexivity. Qed.

(** [range_exists] is reflexive on the stored ranges, in whatever order
    their two components are. *)
Lemma range_exists_reflexive (self : PatchBlocks.t) (r : Z * Z) :
  r ∈ PatchBlocks._blocks self ->
  PatchBlocks.range_exists self (JInt r.1) (JInt r.2) = Ok true.
Proof.
  intros Hr. rewrite range_exists_int, bool_decide_eq_true_2; [done|].
  exists r. split; [done|lia].
Qed.

Lemma range_exists_reflexive_witness :
  PatchBlocks.range_exists {| PatchBlocks._blocks := [(10, 2)] |} (JInt 10) (JInt 2)
  = Ok true.
Proof.
  apply (range_exists_reflexive {| PatchBlocks._blocks := [(10, 2)] |} (10, 2)).
  left.
Defined.

(** C3, as the code has it.  The patch of two hunks yields the ranges
    [(1, 3)] and [(10, 500)]; on that index the range [(10, 500)] is
    contained, and so is [(2, 3)], which is nested in [(1, 3)]. *)
Theorem two_hunks_ranges :
  PatchBlocks._blocks (PatchBlocks.__init__ two_hunks) = [(1, 3); (10, 500)]
  ∧ PatchBlocks.range_exists (PatchBlocks.__init__ two_hunks) (JInt 10) (JInt 500) = Ok true
  ∧ PatchBlocks.range_exists (PatchBlocks.__init__ two_hunks) (JInt 2) (JInt 3) = Ok true.
Proof.
  assert (PatchBlocks._blocks (PatchBlocks.__init__ two_hunks) = [(1, 3); (10, 500)]) as Hb
    by (vm_compute; reflexivity).
  split; [done|]. unfold PatchBlocks.range_exists. rewrite Hb. split; reflexivity.
Qed.

(** C3 as stated fails: the finding [(2, 3)] does not fail containment. *)
Lemma two_hunks_2_3_is_contained :
  ¬ (PatchBlocks._blocks (PatchBlocks.__init__ two_hunks) = [(1, 3); (10, 500)]
     ∧ PatchBlocks.range_exists (PatchBlocks.__init__ two_hunks) (JInt 10) (JInt 500) = Ok true
     ∧ PatchBlocks.range_exists (PatchBlocks.__init__ two_hunks) (JInt 2) (JInt 3) = Ok false).
Proof.
  intros (Hb & _ & H). unfold PatchBlocks.range_exists in H. rewrite Hb in H.
  discriminate H.
Qed.

(** C4.  If the report yields a finding whose filename is not a key of
    the changeset, the result is [False], whatever the findings yielded
    before it and whatever follows it (more findings, or an exception):
    the value returned is the boolean, no exception is raised. *)
Theorem missing_file_is_false (cs : gmap string PatchBlocks.t) (report : json)
    (before : list Finding) (f : finding) (rest : gen finding) :
  snyk_results report = gen_app (yield_all (as_yielded <$> before)) (Yield f rest) ->
  dict_lookup cs f.1 = Ok None ->
  main_loop cs (snyk_results report) = Ok false.
Proof.
  intros -> Hf. rewrite main_loop_app_yielded.
  destruct (bool_decide _); [|done].
  destruct f as [filename region]. simpl in *. by rewrite Hf.
Qed.

Lemma missing_file_is_false_witness :
  main_loop (commit_files one_file)
    (snyk_results (report_of [location_of ("a.py", (10, 500));
                              location_of ("b.py", (1, 1));
                              JObj []]))
  = Ok false.
Proof.
  apply (missing_file_is_false _ _ [("a.py", (10, 500))]
           (JStr "b.py", (JInt 1, JInt 1)) (Throw (KeyError "physicalLocation"))).
  - reflexivity.
  - vm_compute. reflexivity.
Defined.

(** C5.  For every changeset, a report that yields no finding gives
    [True]; and so does a report all of whose findings have their file in
    the changeset and their range contained. *)
Theorem all_findings_pass_is_true (cs : gmap string PatchBlocks.t) (report : json) :
  (snyk_results report = Stop -> main_loop cs (snyk_results report) = Ok true)
  ∧ (∀ fs : list Finding,
       snyk_results report = yield_all (as_yielded <$> fs) ->
       Forall (passes cs) fs ->
       main_loop cs (snyk_results report) = Ok true).
Proof.
  split.
  - by intros ->.
  - intros fs -> Hfs. rewrite main_loop_all_yielded. by rewrite bool_decide_eq_true_2.
Qed.

Lemma all_findings_pass_is_true_witness :
  main_loop (commit_files one_file) (snyk_results (report_of [])) = Ok true
  ∧ main_loop (commit_files one_file)
      (snyk_results (report_of [location_of ("a.py", (10, 500));
                                location_of ("a.py", (2, 3))])) = Ok true.
Proof.
  split.
  - apply (all_findings_pass_is_true (commit_files one_file) (report_of [])).
    reflexivity.
  - apply (all_findings_pass_is_true (commit_files one_file)
             (report_of [location_of ("a.py", (10, 500)); location_of ("a.py", (2, 3))]))
      with (fs := [("a.py", (10, 500)); ("a.py", (2, 3))]).
    + reflexivity.
    + repeat constructor.
      * eexists. split; [apply one_file_blocks|]. exists (10, 500).
        split; [right; left|simpl; lia].
      * eexists. split; [apply one_file_blocks|]. exists (1, 3).
        split; [left|simpl; lia].
Defined.

(** C6.  For every changeset and any two reports whose findings are
    permutations of each other, the loop returns the same boolean: [False]
    exactly when at least one finding fails (its file is missing or its
    range is not contained), [True] exactly when all pass. *)
Theorem verdict_invariant_under_permutation (cs : gmap string PatchBlocks.t)
    (report report' : json) (fs fs' : list Finding) :
  snyk_results report = yield_all (as_yielded <$> fs) ->
  snyk_results report' = yield_all (as_yielded <$> fs') ->
  fs ≡ₚ fs' ->
  main_loop cs (snyk_results report) = main_loop cs (snyk_results report')
  ∧ (main_loop cs (snyk_results report) = Ok false ↔ ∃ f, f ∈ fs ∧ ¬ passes cs f)
  ∧ (main_loop cs (snyk_results report) = Ok true ↔ ∀ f, f ∈ fs -> passes cs f).
Proof.
  intros -> -> Hperm. rewrite !main_loop_all_yielded. split; [|split].
  - f_equal. apply bool_decide_ext. by rewrite Hperm.
  - split.
    + intros [= H%bool_decide_eq_false].
      apply not_Forall_Exists in H; [|apply _].
      apply Exists_exists in H as (f & Hf & Hnot). by exists f.
    + intros (f & Hf & Hnot). rewrite bool_decide_eq_false_2; [done|].
      rewrite Forall_forall. intros H. apply Hnot, H, Hf.
  - split.
    + intros [= H%bool_decide_eq_true]. by apply Forall_forall.
    + intros H. rewrite bool_decide_eq_true_2; [done|]. by apply Forall_forall.
Qed.

Lemma verdict_invariant_under_permutation_witness :
  main_loop (commit_files one_file)
    (snyk_results (report_of (location_of <$> [("a.py", (10, 500)); ("b.py", (1, 1))])))
  = main_loop (commit_files one_file)
      (snyk_results (report_of (location_of <$> [("b.py", (1, 1)); ("a.py", (10, 500))]))).
Proof.
  apply (proj1 (verdict_invariant_under_permutation (commit_files one_file)
           (report_of (location_of <$> [("a.py", (10, 500)); ("b.py", (1, 1))]))
           (report_of (location_of <$> [("b.py", (1, 1)); ("a.py", (10, 500))]))
           [("a.py", (10, 500)); ("b.py", (1, 1))]
           [("b.py", (1, 1)); ("a.py", (10, 500))]
           (snyk_results_report_of _) (snyk_results_report_of _)
           (Permutation_swap _ _ _))).
Defined.

(** C7, as the code has it.  On a report that misses a required key the
    check never returns [True].  The generator, run to its end, raises;
    that exception is not caught and comes out of the check when every
    finding yielded before it passes, and the check returns [False] when
    one of them fails (the loop returns before the generator reaches the
    defective object).  A report without ["runs"] always aborts with the
    lookup failure. *)
Theorem missing_key_never_verifies (cs : gmap string PatchBlocks.t) (report : json) :
  missing_required_key report ->
  ∃ e, gen_end (snyk_results report) = Some e
    ∧ main_loop cs (snyk_results report) ≠ Ok true
    ∧ (main_loop cs (yield_all (gen_yields (snyk_results report))) = Ok true ->
       main_loop cs (snyk_results report) = Raise e)
    ∧ (main_loop cs (yield_all (gen_yields (snyk_results report))) = Ok false ->
       main_loop cs (snyk_results report) = Ok false)
    ∧ (lacks report "runs" ->
       main_loop cs (snyk_results report) = Raise (KeyError "runs")).
Proof.
  intros Hmiss. destruct (snyk_results_raises _ Hmiss) as [e He].
  exists e. split; [done|].
  rewrite (main_loop_split cs (snyk_results report)), He.
  split_and!.
  - by destruct (main_loop cs (yield_all _)) as [[]|].
  - by intros ->.
  - by intros ->.
  - intros Hruns. unfold snyk_results, for_in, subscript, evaluated in *.
    simpl in *. rewrite (getitem_lacks _ _ Hruns) in *. simpl in *. by simplify_eq.
Qed.

Lemma missing_key_never_verifies_witness :
  ∃ e, gen_end (snyk_results (report_of [location_of ("a.py", (10, 500)); JObj []])) = Some e
    ∧ main_loop (commit_files one_file)
        (snyk_results (report_of [location_of ("a.py", (10, 500)); JObj []])) ≠ Ok true
    ∧ (main_loop (commit_files one_file)
         (yield_all (gen_yields
            (snyk_results (report_of [location_of ("a.py", (10, 500)); JObj []])))) = Ok true ->
       main_loop (commit_files one_file)
         (snyk_results (report_of [location_of ("a.py", (10, 500)); JObj []])) = Raise e)
    ∧ (main_loop (commit_files one_file)
         (yield_all (gen_yields
            (snyk_results (report_of [location_of ("a.py", (10, 500)); JObj []])))) = Ok false ->
       main_loop (commit_files one_file)
         (snyk_results (report_of [location_of ("a.py", (10, 500)); JObj []])) = Ok false)
    ∧ (lacks (report_of [location_of ("a.py", (10, 500)); JObj []]) "runs" ->
       main_loop (commit_files one_file)
         (snyk_results (report_of [location_of ("a.py", (10, 500)); JObj []]))
       = Raise (KeyError "runs")).
Proof.
  apply (missing_key_never_verifies (commit_files one_file)
           (report_of [location_of ("a.py", (10, 500)); JObj []])).
  eapply missing_in_location;
    [reflexivity|left|reflexivity|left|reflexivity|right; left|].
  left. by exists [].
Defined.

(** C7 as stated fails: the second location of this report has no
    ["physicalLocation"], and the check returns [False], because the first
    finding names a file that is not in the changeset. *)
Lemma missing_key_after_a_failing_finding :
  ¬ (∀ (cs : gmap string PatchBlocks.t) (report : json),
       missing_required_key report ->
       ∀ b : bool, main_loop cs (snyk_results report) ≠ Ok b).
Proof.
  intros H.
  apply (H (commit_files one_file)
           (report_of [location_of ("b.py", (1, 1)); JObj []]) ) with (b := false).
  - eapply missing_in_location;
      [reflexivity|left|reflexivity|left|reflexivity|right; left|].
    left. by exists [].
  - vm_compute. reflexivity.
Qed.

(** C8, as the code has it.  Both components of a stored range are
    non-negative: they are the values of two decimal numerals. *)
Theorem stored_range_is_nonnegative (patch : string) (r : Z * Z) :
  r ∈ PatchBlocks._blocks (PatchBlocks.__init__ patch) -> 0 ≤ r.1 ∧ 0 ≤ r.2.
Proof.
  intros Hr. simpl in Hr.
  apply list_elem_of_omap in Hr as (block & _ & Hr).
  apply block_range_Some in Hr as (a & b & c & d & rest & _ & _ & _ & _ & _ & ->).
  split; apply int_nonneg.
Qed.

Lemma stored_range_is_nonnegative_witness : 0 ≤ 10 ∧ 0 ≤ 2.
Proof.
  apply (stored_range_is_nonnegative "@@ -1,5 +10,2 @@" (10, 2)).
  assert (PatchBlocks._blocks (PatchBlocks.__init__ "@@ -1,5 +10,2 @@") = [(10, 2)]) as ->
    by (vm_compute; reflexivity).
  left.
Defined.

(** C8 as stated fails: ["@@ -1,5 +10,2 @@"] stores [(10, 2)], whose start
    is greater than its end, and ["@@ -3,2 +0,0 @@"] stores [(0, 0)]. *)
Lemma stored_range_breaks_the_invariant :
  ¬ (∀ (patch : string) (r : Z * Z),
       r ∈ PatchBlocks._blocks (PatchBlocks.__init__ patch) ->
       r.1 ≤ r.2 ∧ 1 ≤ r.1 ∧ 1 ≤ r.2).
Proof.
  intros H.
  destruct (H "@@ -1,5 +10,2 @@" (10, 2)) as [Hle _]; [|simpl in Hle; lia].
  assert (PatchBlocks._blocks (PatchBlocks.__init__ "@@ -1,5 +10,2 @@") = [(10, 2)]) as ->
    by (vm_compute; reflexivity).
  left.
Qed.

Example empty_new_side :
  PatchBlocks._blocks (PatchBlocks.__init__ "@@ -3,2 +0,0 @@") = [(0, 0)].
Proof. vm_compute. reflexivity. Qed.

(** C9.  The scanner reads the opening ['@@'] of a block only at an index
    that starts a line (index 0, or the index after a newline).  So every
    stored range comes from a block that opens at the start of a line, and
    no block opens at an index inside a line. *)
Theorem opening_only_at_line_start (patch : string) :
  (∀ i block,
     (i, block) ∈ PatchBlocks._get_blocks_at (list_ascii_of_string patch) ->
     line_start (list_ascii_of_string patch) i
     ∧ pair_at (list_ascii_of_string patch) i)
  ∧ (∀ r, r ∈ PatchBlocks._blocks (PatchBlocks.__init__ patch) ->
       ∃ i block,
         (i, block) ∈ PatchBlocks._get_blocks_at (list_ascii_of_string patch)
         ∧ line_start (list_ascii_of_string patch) i
         ∧ PatchBlocks.block_range block = Some r)
  ∧ (∀ i block,
       ¬ line_start (list_ascii_of_string patch) i ->
       (i, block) ∉ PatchBlocks._get_blocks_at (list_ascii_of_string patch)).
Proof.
  split_and!.
  - intros i block Hin.
    apply _get_blocks_at_elem in Hin as (? & ? & _). done.
  - intros r Hr. simpl in Hr.
    apply list_elem_of_omap in Hr as (block & Hin & Hr).
    apply list_elem_of_fmap in Hin as ([i block'] & -> & Hin).
    exists i, block'. split; [done|]. split; [|done].
    by apply _get_blocks_at_elem in Hin as (? & _).
  - intros i block Hnot Hin. apply Hnot.
    by apply _get_blocks_at_elem in Hin as (? & _).
Qed.

Lemma opening_only_at_line_start_witness :
  line_start (list_ascii_of_string two_hunks) 20
  ∧ pair_at (list_ascii_of_string two_hunks) 20.
Proof.
  apply (proj1 (opening_only_at_line_start two_hunks) 20%nat
           (list_ascii_of_string "@@ -10,2 +10,500 @@")).
  rewrite two_hunks_blocks. right; left.
Defined.

(** * Further properties *)

(** ** The scanner, one turn of the loop at a time *)

Section scanner_steps.
Import PatchBlocks.

Lemma blocks_from_stop patch i new_line :
  (length patch ≤ i + 1)%nat -> blocks_from patch i new_line = [].
Proof. funelim (blocks_from patch i new_line); intros Hlen; first [done|lia]. Qed.

Lemma blocks_from_no_pair patch i :
  ¬ pair_at patch i -> blocks_from patch i true = blocks_from patch (i + 1) false.
Proof.
  intros Hpair. remember true as new_line eqn:Hnl.
  funelim (blocks_from patch i new_line); try done.
  - by rewrite blocks_from_stop by lia.
  - by apply char_at_pair in Heq.
  - by apply char_at_pair in Heq.
Qed.

Lemma blocks_from_newline patch i :
  patch !! i = Some LF -> blocks_from patch i false = blocks_from patch (i + 1) true.
Proof.
  intros Hlf. remember false as new_line eqn:Hnl.
  funelim (blocks_from patch i new_line); try done.
  - by rewrite blocks_from_stop by lia.
  - unfold char_at in Heq. by apply bool_decide_eq_false in Heq.
Qed.

Lemma blocks_from_char patch i :
  patch !! i ≠ Some LF -> blocks_from patch i false = blocks_from patch (i + 1) false.
Proof.
  intros Hlf. remember false as new_line eqn:Hnl.
  funelim (blocks_from patch i new_line); try done.
  - by rewrite blocks_from_stop by lia.
  - unfold char_at in Heq. by apply bool_decide_eq_true in Heq.
Qed.

Lemma blocks_from_chars patch i n :
  (∀ m, (m < n)%nat -> patch !! (i + m)%nat ≠ Some LF) ->
  blocks_from patch i false = blocks_from patch (i + n) false.
Proof.
  revert i. induction n as [|n IH]; intros i Hn.
  - by rewrite Nat.add_0_r.
  - rewrite blocks_from_char by (rewrite <- (Nat.add_0_r i); apply Hn; lia).
    rewrite IH; [f_equal; lia|].
    intros m Hm. replace (i + 1 + m)%nat with (i + S m)%nat by lia. apply Hn. lia.
Qed.
End scanner_steps.

(** ** What the scanner yields *)

Section scanner_yields.
Import PatchBlocks.

Lemma separated_weaken lo lo' blocks :
  (lo' ≤ lo)%nat -> separated lo blocks -> separated lo' blocks.
Proof. destruct blocks as [|[i block] blocks]; simpl; [done|]. intros ? [? ?]. split; [lia|done]. Qed.

Lemma blocks_from_separated patch i (new_line : bool) :
  separated (if new_line then i else i + 1)%nat (blocks_from patch i new_line).
Proof.
  funelim (blocks_from patch i new_line); simpl in *.
  - done.
  - eapply separated_weaken; [|done]. lia.
  - split; [lia|].
    pose proof (find_close_range _ _ _ Hj) as [? ?].
    rewrite slice_length by lia.
    replace (i + (j + 2 - i) + 1)%nat with (j + 2 + 1)%nat by lia. done.
  - eapply separated_weaken; [|done]. lia.
  - done.
  - eapply separated_weaken; [|done]. lia.
Qed.

Lemma separated_lookup lo blocks n i1 b1 i2 b2 :
  separated lo blocks ->
  blocks !! n = Some (i1, b1) -> blocks !! S n = Some (i2, b2) ->
  (i1 + length b1 < i2)%nat.
Proof.
  revert lo n. induction blocks as [|[i block] blocks IH]; intros lo n Hsep H1 H2; [done|].
  destruct Hsep as [_ Hsep]. destruct n as [|n]; simpl in *.
  - simplify_eq. destruct blocks as [|[i' block'] blocks]; simplify_eq/=.
    destruct Hsep as [? _]. lia.
  - eauto.
Qed.
End scanner_yields.

(** X2.  Every block [_get_blocks] yields lies in the patch at the index
    where it was read, and is ['@@'], then characters in which (with the
    ['@'] that follows them) no two ['@'] are adjacent, then ['@@']: the
    block ends at the first closing pair, and has at least four
    characters. *)
Theorem yielded_block_shape (patch : list ascii) (i : nat) (block : list ascii) :
  (i, block) ∈ PatchBlocks._get_blocks_at patch ->
  ∃ inner,
    block = ["@"; "@"]%char ++ inner ++ ["@"; "@"]%char
    ∧ (∀ m, ¬ pair_at (inner ++ ["@"%char]) m)
    ∧ (i + length block ≤ length patch)%nat
    ∧ block = PatchBlocks.slice patch i (i + length block).
Proof.
  intros Hin.
  apply _get_blocks_at_elem in Hin as (_ & [Hi0 Hi1] & j & Hj & ->).
  pose proof (find_close_range _ _ _ Hj) as [Hle Hlen].
  apply find_close_Some in Hj as (_ & [Hj0 Hj1] & Hmin).
  assert (length (PatchBlocks.slice patch i (j + 2)) = (j + 2 - i)%nat) as Hbl
    by (apply slice_length; lia).
  exists (PatchBlocks.slice patch (i + 2) j).
  split_and!.
  - unfold PatchBlocks.slice.
    rewrite (drop_S _ _ _ Hi0). rewrite (drop_S _ "@"%char (S i)) by (by rewrite <- Nat.add_1_r).
    replace (j + 2 - i)%nat with (S (S (S (S (j - (i + 2)))))) by lia.
    simpl. do 2 f_equal. replace (S (S i)) with (i + 2)%nat by lia.
    assert (drop (i + 2) patch !! (j - (i + 2))%nat = Some "@"%char) as H0
      by (rewrite lookup_drop; by replace (i + 2 + (j - (i + 2)))%nat with j by lia).
    assert (drop (i + 2) patch !! S (j - (i + 2)) = Some "@"%char) as H1
      by (rewrite lookup_drop; by replace (i + 2 + S (j - (i + 2)))%nat with (j + 1)%nat by lia).
    rewrite (take_S_r _ _ _ H1), (take_S_r _ _ _ H0), <- app_assoc. done.
  - intros m [Hm0 Hm1].
    assert (length (PatchBlocks.slice patch (i + 2) j) = (j - (i + 2))%nat) as Hil
      by (apply slice_length; lia).
    assert (m < j - (i + 2))%nat as Hm.
    { apply lookup_lt_Some in Hm1. rewrite length_app, Hil in Hm1. simpl in Hm1. lia. }
    apply (Hmin (i + 2 + m)%nat); [lia|]. split.
    + rewrite lookup_app_l in Hm0 by lia. by rewrite slice_lookup in Hm0 by lia.
    + destruct (decide (m + 1 < j - (i + 2))%nat) as [Hlt|Hge].
      * rewrite lookup_app_l in Hm1 by lia. rewrite slice_lookup in Hm1 by lia.
        by rewrite <- Nat.add_assoc.
      * by replace (i + 2 + m + 1)%nat with j by lia.
  - lia.
  - by rewrite Hbl; replace (i + (j + 2 - i))%nat with (j + 2)%nat by lia.
Qed.

Lemma yielded_block_shape_witness :
  ∃ inner,
    list_ascii_of_string "@@ -10,2 +10,500 @@" = ["@"; "@"]%char ++ inner ++ ["@"; "@"]%char
    ∧ (∀ m, ¬ pair_at (inner ++ ["@"%char]) m)
    ∧ (20 + length (list_ascii_of_string "@@ -10,2 +10,500 @@")
       ≤ length (list_ascii_of_string two_hunks))%nat
    ∧ list_ascii_of_string "@@ -10,2 +10,500 @@"
      = PatchBlocks.slice (list_ascii_of_string two_hunks) 20
          (20 + length (list_ascii_of_string "@@ -10,2 +10,500 @@")).
Proof.
  apply (yielded_block_shape (list_ascii_of_string two_hunks) 20
           (list_ascii_of_string "@@ -10,2 +10,500 @@")).
  rewrite two_hunks_blocks. right; left.
Defined.

(** X3.  The blocks are yielded in the order of the text and do not
    overlap: a block starts after the end of the block yielded before it,
    with at least one character between the two. *)
Theorem yielded_blocks_in_order (patch : list ascii) (n i1 i2 : nat)
    (block1 block2 : list ascii) :
  PatchBlocks._get_blocks_at patch !! n = Some (i1, block1) ->
  PatchBlocks._get_blocks_at patch !! S n = Some (i2, block2) ->
  (i1 + length block1 < i2)%nat.
Proof.
  intros H1 H2.
  eapply separated_lookup; [|done..].
  apply (blocks_from_separated patch 0 true).
Qed.

Lemma yielded_blocks_in_order_witness :
  (0 + length (list_ascii_of_string "@@ -1,2 +1,3 @@") < 20)%nat.
Proof.
  apply (yielded_blocks_in_order (list_ascii_of_string two_hunks) 0 0 20
           (list_ascii_of_string "@@ -1,2 +1,3 @@")
           (list_ascii_of_string "@@ -10,2 +10,500 @@"));
    by rewrite two_hunks_blocks.
Defined.

(** X4.  No partial block: a patch in which no pair ['@@'] is followed, two
    or more characters later, by another pair yields no block, and so
    stores no range. *)
Theorem no_closing_pair_no_block (patch : string) :
  (∀ i j, pair_at (list_ascii_of_string patch) i ->
          pair_at (list_ascii_of_string patch) j -> ¬ (i + 2 ≤ j)%nat) ->
  PatchBlocks._get_blocks (list_ascii_of_string patch) = []
  ∧ PatchBlocks._blocks (PatchBlocks.__init__ patch) = [].
Proof.
  intros Hpairs.
  assert (PatchBlocks._get_blocks_at (list_ascii_of_string patch) = []) as Hnil.
  { destruct (PatchBlocks._get_blocks_at _) as [|[i block] blocks] eqn:Hb; [done|].
    assert ((i, block) ∈ PatchBlocks._get_blocks_at (list_ascii_of_string patch)) as Hin
      by (rewrite Hb; left).
    apply _get_blocks_at_elem in Hin as (_ & Hi & j & Hj & _).
    apply find_close_Some in Hj as (Hle & Hpj & _).
    destruct (Hpairs i j Hi Hpj Hle). }
  unfold PatchBlocks.__init__, PatchBlocks._get_blocks. by rewrite Hnil.
Qed.

Lemma no_closing_pair_no_block_witness :
  PatchBlocks._get_blocks (list_ascii_of_string "@@ -1,2 +3,4") = []
  ∧ PatchBlocks._blocks (PatchBlocks.__init__ "@@ -1,2 +3,4") = [].
Proof.
  apply (no_closing_pair_no_block "@@ -1,2 +3,4").
  intros i j _ [Hj _] Hle.
  do 2 (destruct j as [|j]; [lia|]).
  do 10 (destruct j as [|j]; [discriminate Hj|]). discriminate Hj.
Defined.

(** ** The scanner on a text of lines *)

Section scanner_lines.
Import PatchBlocks.

Lemma drop_eq_lookup {A} (l : list A) i x m :
  drop i l = x -> l !! (i + m)%nat = x !! m.
Proof. intros <-. by rewrite lookup_drop. Qed.

Lemma drop_eq_length {A} (l : list A) i x :
  drop i l = x -> (length l - i)%nat = length x.
Proof. intros <-. by rewrite length_drop. Qed.

Lemma drop_eq_app {A} (l : list A) i x y :
  drop i l = x ++ y -> drop (i + length x) l = y.
Proof. intros H. by rewrite <- drop_drop, H, drop_app_length. Qed.

Lemma take_hunk (inner tail after : list ascii) n :
  n = (length inner + 4)%nat ->
  take n ("@"%char :: "@"%char :: (inner ++ "@"%char :: "@"%char :: tail) ++ after)
  = "@"%char :: "@"%char :: inner ++ ["@"; "@"]%char.
Proof.
  intros ->.
  replace (length inner + 4)%nat with (S (S (length (inner ++ ["@"; "@"]%char))))
    by (rewrite length_app; simpl; lia).
  simpl. do 2 f_equal.
  replace ((inner ++ "@"%char :: "@"%char :: tail) ++ after)
    with ((inner ++ ["@"; "@"]%char) ++ tail ++ after)
    by (by rewrite <- !app_assoc).
  apply take_app_length.
Qed.

(** The end of a line, read with [new_line] false. *)
Lemma blocks_from_end_of_line patch k after :
  drop k patch = after -> (after = [] ∨ ∃ after', after = LF :: after') ->
  blocks_from patch k false = blocks_from patch (k + 1) true.
Proof.
  intros Hdrop [->|[after' ->]].
  - apply drop_eq_length in Hdrop. simpl in Hdrop.
    by rewrite !blocks_from_stop by lia.
  - apply blocks_from_newline.
    rewrite <- (Nat.add_0_r k). by rewrite (drop_eq_lookup _ _ _ 0 Hdrop).
Qed.

(** One line, read from its first character with [new_line] true. *)
Lemma blocks_from_line patch i l after :
  line_ok l -> drop i patch = line_text l ++ after ->
  (after = [] ∨ ∃ after', after = LF :: after') ->
  blocks_from patch i true
  = match line_block l with Some block => [(i, block)] | None => [] end
    ++ blocks_from patch (i + length (line_text l) + 1) true.
Proof.
  intros Hok Hdrop Hafter.
  pose proof (fun m => drop_eq_lookup _ _ _ m Hdrop) as Hat.
  pose proof (drop_eq_length _ _ _ Hdrop) as Hlen. rewrite length_app in Hlen.
  rewrite <- (blocks_from_end_of_line patch (i + length (line_text l)) after);
    [|by apply drop_eq_app|done].
  destruct l as [inner tail|text]; simpl in *.
  - destruct Hok as [Hinner Htail].
    rewrite length_app in Hlen |- *. simpl in Hlen |- *.
    assert (pair_at patch i) as Hpi.
    { split; [rewrite <- (Nat.add_0_r i)|]; by rewrite Hat. }
    assert (∀ m, patch !! (i + 2 + m)%nat = (inner ++ "@"%char :: "@"%char :: tail ++ after) !! m)
      as Hat2.
    { intros m. replace (i + 2 + m)%nat with (i + S (S m))%nat by lia.
      rewrite Hat. simpl. by rewrite <- app_assoc. }
    assert (find_close patch (i + 2) = Some (i + 2 + length inner)%nat) as Hclose.
    { apply find_close_first; [lia|simpl in Hlen; lia| |].
      - split; [|rewrite <- Nat.add_assoc]; rewrite Hat2, lookup_app_r by lia.
        + by replace (length inner - length inner)%nat with 0%nat by lia.
        + by replace (length inner + 1 - length inner)%nat with 1%nat by lia.
      - intros m Hm [Hm0 _].
        replace m with (i + 2 + (m - (i + 2)))%nat in Hm0 by lia.
        rewrite Hat2, lookup_app_l in Hm0 by lia.
        apply Hinner. by eapply list_elem_of_lookup_2. }
    assert (i + 1 < length patch)%nat as Hbound by lia.
    rewrite (blocks_from_yield _ _ _ Hbound Hpi Hclose).
    f_equal.
    + f_equal. unfold slice. rewrite Hdrop. apply take_hunk. lia.
    + rewrite (blocks_from_chars _ _ (length tail)).
      * f_equal. lia.
      * intros m Hm Hlf.
        replace (i + 2 + length inner + 2 + m)%nat
          with (i + 2 + (length inner + 2 + m))%nat in Hlf by lia.
        rewrite Hat2, lookup_app_r in Hlf by lia.
        replace (length inner + 2 + m - length inner)%nat with (S (S m)) in Hlf by lia.
        simpl in Hlf. rewrite lookup_app_l in Hlf by lia.
        apply Htail. by eapply list_elem_of_lookup_2.
  - destruct Hok as (Hne & Hlf & Hstart).
    destruct text as [|c text]; [done|]. simpl in *.
    rewrite blocks_from_no_pair.
    + rewrite (blocks_from_chars _ _ (length text)); [f_equal; lia|].
      intros m Hm Hm'. replace (i + 1 + m)%nat with (i + S m)%nat in Hm' by lia.
      rewrite Hat in Hm'. simpl in Hm'. rewrite lookup_app_l in Hm' by lia.
      apply Hlf. right. by eapply list_elem_of_lookup_2.
    + intros [H0 H1]. rewrite <- (Nat.add_0_r i) in H0. rewrite Hat in H0, H1.
      simpl in *. simplify_eq.
      destruct text as [|c' text]; simpl in *.
      * destruct Hafter as [->|[after' ->]]; simplify_eq.
      * simplify_eq. apply Hstart. by eexists.
Qed.

Lemma blocks_from_lines ls patch i trailer :
  Forall line_ok ls -> (trailer = [] ∨ trailer = [LF]) ->
  drop i patch = join_lines ls ++ trailer ->
  (blocks_from patch i true).*2 = omap line_block ls.
Proof.
  intros Hok. revert patch i trailer.
  induction Hok as [|l ls Hl Hls IH]; intros patch i trailer Htrailer Hdrop.
  - apply drop_eq_length in Hdrop. rewrite blocks_from_stop; [done|].
    destruct Htrailer as [->| ->]; simpl in Hdrop; lia.
  - simpl in Hdrop. rewrite <- app_assoc in Hdrop.
    rewrite (blocks_from_line _ _ _ _ Hl Hdrop).
    + rewrite fmap_app. cbn [omap list_omap].
      rewrite (IH patch (i + length (line_text l) + 1)%nat
                 (match ls with [] => [] | _ :: _ => trailer end)).
      * by destruct (line_block l).
      * destruct ls; [by left|done].
      * rewrite <- drop_drop, (drop_eq_app _ _ _ _ Hdrop).
        destruct ls as [|l' ls]; simpl; [|done].
        destruct Htrailer as [->| ->]; done.
    + destruct ls as [|l' ls]; simpl; [|right; by eexists].
      destruct Htrailer as [->| ->]; [by left|right; by eexists].
Qed.

Lemma header_line_ok a b c d tail :
  numeral a -> numeral b -> numeral c -> numeral d -> LF ∉ tail ->
  line_ok (as_line (Header a b c d tail)).
Proof.
  intros [_ Ha] [_ Hb] [_ Hc] [_ Hd] Htail. split; [|done].
  assert (∀ n, Forall (fun x => is_digit x = true) n
               -> Forall (fun x => x ≠ "@"%char) n) as Hn.
  { intros n Hdigits. eapply Forall_impl; [done|]. by intros x Hx ->. }
  assert (Forall (fun x => x ≠ "@"%char)
            ([" "; "-"]%char ++ a ++ [","%char] ++ b
             ++ [" "; "+"]%char ++ c ++ [","%char] ++ d ++ [" "%char])) as Hall.
  { repeat (apply Forall_app; split); auto; by repeat constructor. }
  intros Hin. rewrite Forall_forall in Hall. by apply Hall in Hin.
Qed.
End scanner_lines.

(** X5.  On a text made of lines, with or without a final newline, where a
    line is either a hunk line (['@@'], characters other than ['@'],
    ['@@'], the rest of the line) or a line that is not empty and does not
    begin with ['@@'], [_get_blocks] yields the block of every hunk line,
    in order, and nothing else. *)
Theorem scanner_reads_every_hunk_line (ls : list line) (trailer : list ascii) :
  Forall line_ok ls -> (trailer = [] ∨ trailer = [PatchBlocks.LF]) ->
  PatchBlocks._get_blocks (join_lines ls ++ trailer) = omap line_block ls.
Proof.
  intros Hok Htrailer.
  apply (blocks_from_lines ls (join_lines ls ++ trailer) 0 trailer Hok Htrailer).
  apply drop_0.
Qed.

Lemma scanner_reads_every_hunk_line_witness :
  PatchBlocks._get_blocks
    (join_lines [Hunk (list_ascii_of_string " -1,2 +1,3 ") (list_ascii_of_string " def f():");
                 Other (list_ascii_of_string "+x = 1");
                 Hunk (list_ascii_of_string " -9 +9 ") []]
     ++ [PatchBlocks.LF])
  = omap line_block
      [Hunk (list_ascii_of_string " -1,2 +1,3 ") (list_ascii_of_string " def f():");
       Other (list_ascii_of_string "+x = 1");
       Hunk (list_ascii_of_string " -9 +9 ") []].
Proof.
  apply (scanner_reads_every_hunk_line
           [Hunk (list_ascii_of_string " -1,2 +1,3 ") (list_ascii_of_string " def f():");
            Other (list_ascii_of_string "+x = 1");
            Hunk (list_ascii_of_string " -9 +9 ") []] [PatchBlocks.LF]).
  - repeat constructor; simpl;
      rewrite ?elem_of_cons, ?elem_of_nil; try (intros H; repeat destruct H as [H|H]; done).
    intros [t H]; discriminate H.
  - by right.
Defined.

(** X6.  On a unified diff, with or without a final newline, in which every
    line is a hunk header followed by the rest of its line, or a body line
    that is not empty and does not begin with ['@@'], [__init__] stores the
    pair [(newStart, newCount)] of every header, in order, and nothing
    else. *)
Theorem init_reads_every_header (patch : string) (ds : list diff_line)
    (trailer : list ascii) :
  Forall diff_line_ok ds -> (trailer = [] ∨ trailer = [PatchBlocks.LF]) ->
  list_ascii_of_string patch = join_lines (as_line <$> ds) ++ trailer ->
  PatchBlocks._blocks (PatchBlocks.__init__ patch) = omap header_range ds.
Proof.
  intros Hok Htrailer Hpatch.
  unfold PatchBlocks.__init__. cbn [PatchBlocks._blocks].
  rewrite Hpatch. unfold PatchBlocks._get_blocks, PatchBlocks._get_blocks_at.
  rewrite (blocks_from_lines (as_line <$> ds) _ 0 trailer); [| |done..].
  - clear Hpatch. induction Hok as [|d ds Hd _ IH]; [done|].
    rewrite fmap_cons. destruct d as [a b c d tail|text]; cbn [omap list_omap].
    + destruct Hd as (Ha & Hb & Hc & Hd & _).
      repeat cbn [as_line line_block header_range omap list_omap].
      assert (PatchBlocks.block_range
                (["@"; "@"]%char
                 ++ ([" "; "-"]%char ++ a ++ [","%char] ++ b ++ [" "; "+"]%char
                     ++ c ++ [","%char] ++ d ++ [" "%char]) ++ ["@"; "@"]%char)
              = Some (PatchBlocks.int c, PatchBlocks.int d)) as ->.
      { apply block_range_Some. exists a, b, c, d, [].
        split_and!; try done. unfold hunk_header. by normalize_app. }
      by rewrite IH.
    + done.
  - apply Forall_fmap. eapply Forall_impl; [done|].
    intros [a b c d tail|text]; simpl; [|done].
    intros (? & ? & ? & ? & ?). by apply header_line_ok.
Qed.

Lemma init_reads_every_header_witness :
  PatchBlocks._blocks (PatchBlocks.__init__ two_hunks)
  = omap header_range
      [Header (list_ascii_of_string "1") (list_ascii_of_string "2")
         (list_ascii_of_string "1") (list_ascii_of_string "3") [];
       Body (list_ascii_of_string "...");
       Header (list_ascii_of_string "10") (list_ascii_of_string "2")
         (list_ascii_of_string "10") (list_ascii_of_string "500") []].
Proof.
  apply (init_reads_every_header two_hunks
           [Header (list_ascii_of_string "1") (list_ascii_of_string "2")
              (list_ascii_of_string "1") (list_ascii_of_string "3") [];
            Body (list_ascii_of_string "...");
            Header (list_ascii_of_string "10") (list_ascii_of_string "2")
              (list_ascii_of_string "10") (list_ascii_of_string "500") []] []).
  - repeat constructor; simpl;
      rewrite ?elem_of_cons, ?elem_of_nil; try (intros H; repeat destruct H as [H|H]; done);
      try done.
    intros [t H]; discriminate H.
  - by left.
  - reflexivity.
Defined.

(** ** Blocks that are not hunk headers *)

Section short_headers.
Import PatchBlocks.

(** A run of digits followed by a character that is not a digit is read in
    one way only. *)
Lemma digits_then_other d1 d2 c1 c2 s1 s2 :
  is_digit c1 = false -> is_digit c2 = false ->
  Forall (fun c => is_digit c = true) d1 ->
  Forall (fun c => is_digit c = true) d2 ->
  d1 ++ c1 :: s1 = d2 ++ c2 :: s2 -> d1 = d2 ∧ c1 = c2 ∧ s1 = s2.
Proof.
  intros Hc1 Hc2 Hd1. revert d2. induction Hd1 as [|x d1 Hx _ IH]; intros d2 Hd2 Heq.
  - destruct Hd2 as [|y d2 Hy _]; simplify_eq/=; [done|congruence].
  - destruct Hd2 as [|y d2 Hy Hd2]; simplify_eq/=; [congruence|].
    destruct (IH _ Hd2 ltac:(done)) as (-> & -> & ->). done.
Qed.
End short_headers.

(** X7.  A hunk header in a short form of the unified format, with the
    count left out on the old side, on the new side or on both
    ([@@ -a +c @@], [@@ -a,b +c @@], [@@ -a +c,d @@]), does not match the
    pattern: the block is skipped and contributes no range. *)
Theorem short_header_is_skipped (a b c d rest : list ascii) :
  numeral a -> numeral b -> numeral c -> numeral d ->
  PatchBlocks.block_range
    (["@"; "@"; " "; "-"]%char ++ a ++ [" "; "+"]%char ++ c
     ++ [" "; "@"; "@"]%char ++ rest) = None
  ∧ PatchBlocks.block_range
      (["@"; "@"; " "; "-"]%char ++ a ++ [","%char] ++ b ++ [" "; "+"]%char ++ c
       ++ [" "; "@"; "@"]%char ++ rest) = None
  ∧ PatchBlocks.block_range
      (["@"; "@"; " "; "-"]%char ++ a ++ [" "; "+"]%char ++ c ++ [","%char] ++ d
       ++ [" "; "@"; "@"]%char ++ rest) = None.
Proof.
  intros [_ Ha] [_ Hb] [_ Hc] [_ Hd].
  split_and!.
  - destruct (PatchBlocks.block_range _) as [r|] eqn:Hr; [|done]. exfalso.
    apply block_range_Some in Hr
      as (a' & b' & c' & d' & rest' & [_ Ha'] & _ & _ & _ & Heq & _).
    unfold hunk_header in Heq. revert Heq. normalize_app. intros [= Heq].
    by apply digits_then_other in Heq as (_ & ? & _).
  - destruct (PatchBlocks.block_range _) as [r|] eqn:Hr; [|done]. exfalso.
    apply block_range_Some in Hr
      as (a' & b' & c' & d' & rest' & [_ Ha'] & [_ Hb'] & [_ Hc'] & _ & Heq & _).
    unfold hunk_header in Heq. revert Heq. normalize_app. intros [= Heq].
    apply digits_then_other in Heq as (_ & _ & Heq); [|done..].
    apply digits_then_other in Heq as (_ & _ & [= Heq]); [|done..].
    by apply digits_then_other in Heq as (_ & ? & _).
  - destruct (PatchBlocks.block_range _) as [r|] eqn:Hr; [|done]. exfalso.
    apply block_range_Some in Hr
      as (a' & b' & c' & d' & rest' & [_ Ha'] & _ & _ & _ & Heq & _).
    unfold hunk_header in Heq. revert Heq. normalize_app. intros [= Heq].
    by apply digits_then_other in Heq as (_ & ? & _).
Qed.

Lemma short_header_is_skipped_witness :
  PatchBlocks.block_range (list_ascii_of_string "@@ -7 +9 @@") = None
  ∧ PatchBlocks.block_range (list_ascii_of_string "@@ -7,2 +9 @@") = None
  ∧ PatchBlocks.block_range (list_ascii_of_string "@@ -7 +9,2 @@") = None.
Proof.
  apply (short_header_is_skipped
           (list_ascii_of_string "7") (list_ascii_of_string "2")
           (list_ascii_of_string "9") (list_ascii_of_string "2") []);
    (split; [done|by repeat constructor]).
Defined.

(** ** range_exists on other queries *)

Section range_exists_more.
Import PatchBlocks.

Lemma range_exists_in_not_numeric blocks start end_ :
  ¬ numeric start -> blocks ≠ [] ->
  range_exists_in blocks start end_ = Raise TypeError.
Proof.
  intros Hstart Hne. destruct blocks as [|block blocks]; [done|].
  cbn [range_exists_in]. by destruct start.
Qed.

Lemma range_exists_in_end_not_numeric blocks (s : Z) end_ :
  ¬ numeric end_ ->
  (Exists (fun r : Z * Z => r.1 ≤ s) blocks ->
   range_exists_in blocks (JInt s) end_ = Raise TypeError)
  ∧ (Forall (fun r : Z * Z => s < r.1) blocks ->
     range_exists_in blocks (JInt s) end_ = Ok false).
Proof.
  intros Hend. induction blocks as [|[lo hi] blocks [IH1 IH2]].
  - split; [by intros ?%Exists_nil|done].
  - cbn [range_exists_in int_le fst snd]. split.
    + intros [Hlo|Hex]%Exists_cons.
      * simpl in Hlo. rewrite (proj2 (Z.leb_le _ _) Hlo). by destruct end_.
      * destruct (lo <=? s); [by destruct end_|auto].
    + intros [Hlo Hall]%Forall_cons. simpl in Hlo.
      rewrite (proj2 (Z.leb_gt _ _) Hlo). auto.
Qed.
End range_exists_more.

(** X8.  Line numbers that are not numbers (a string, [null], a list, an
    object).  [range_exists] raises [TypeError] as soon as it evaluates a
    comparison with such a value: for such a [start], on every index that
    is not empty (and it returns [False] on an empty one); for an integer
    [start] and such an [end], exactly when some stored range has its start
    at or below [start], since [end] is compared only then.  In [main] the
    exception is not caught. *)
Theorem range_exists_on_non_numbers (self : PatchBlocks.t) (start end_ : json) :
  (¬ numeric start -> PatchBlocks._blocks self ≠ [] ->
   PatchBlocks.range_exists self start end_ = Raise TypeError)
  ∧ (¬ numeric start -> PatchBlocks._blocks self = [] ->
     PatchBlocks.range_exists self start end_ = Ok false)
  ∧ (∀ s : Z, start = JInt s -> ¬ numeric end_ ->
       (Exists (fun r : Z * Z => r.1 ≤ s) (PatchBlocks._blocks self) ->
        PatchBlocks.range_exists self start end_ = Raise TypeError)
       ∧ (Forall (fun r : Z * Z => s < r.1) (PatchBlocks._blocks self) ->
          PatchBlocks.range_exists self start end_ = Ok false))
  ∧ (∀ (cs : gmap string PatchBlocks.t) (name : string) (rest : gen finding),
       cs !! name = Some self ->
       PatchBlocks.range_exists self start end_ = Raise TypeError ->
       main_loop cs (Yield (JStr name, (start, end_)) rest) = Raise TypeError).
Proof.
  unfold PatchBlocks.range_exists. split_and!.
  - apply range_exists_in_not_numeric.
  - by intros _ ->.
  - intros s -> Hend. by apply range_exists_in_end_not_numeric.
  - intros cs name rest Hcs Hraise. simpl. rewrite Hcs.
    unfold PatchBlocks.range_exists. by rewrite Hraise.
Qed.

Lemma range_exists_on_non_numbers_witness :
  PatchBlocks.range_exists {| PatchBlocks._blocks := [(10, 20)] |} (JStr "12") (JInt 15)
  = Raise TypeError.
Proof.
  apply (proj1 (range_exists_on_non_numbers
                  {| PatchBlocks._blocks := [(10, 20)] |} (JStr "12") (JInt 15)));
    [by intros []|done].
Defined.

(** X9.  Containment is kept when the query shrinks: if [(start, end)] is
    contained, so is every [(start', end')] with [start <= start'] and
    [end' <= end], whether or not [start' <= end']. *)
Theorem range_exists_shrinks (self : PatchBlocks.t) (start end_ start' end_' : Z) :
  PatchBlocks.range_exists self (JInt start) (JInt end_) = Ok true ->
  start ≤ start' -> end_' ≤ end_ ->
  PatchBlocks.range_exists self (JInt start') (JInt end_') = Ok true.
Proof.
  rewrite !range_exists_int. intros [= H%bool_decide_eq_true] Hs He.
  rewrite bool_decide_eq_true_2; [done|].
  destruct H as (r & Hr & Hlo & Hhi). exists r. split; [done|lia].
Qed.

Lemma range_exists_shrinks_witness :
  PatchBlocks.range_exists {| PatchBlocks._blocks := [(10, 20)] |} (JInt 15) (JInt 12)
  = Ok true.
Proof.
  apply (range_exists_shrinks {| PatchBlocks._blocks := [(10, 20)] |} 10 20 15 12);
    [reflexivity|lia|lia].
Defined.

(** X10.  The order of the stored ranges does not matter to a query: two
    indexes whose ranges are permutations of each other answer every
    integer query alike, and an index built from two lists of ranges
    contains a query exactly when one of the two does. *)
Theorem range_exists_order_irrelevant (blocks blocks' : list (Z * Z)) (start end_ : Z) :
  blocks ≡ₚ blocks' ->
  PatchBlocks.range_exists {| PatchBlocks._blocks := blocks |} (JInt start) (JInt end_)
  = PatchBlocks.range_exists {| PatchBlocks._blocks := blocks' |} (JInt start) (JInt end_)
  ∧ (∀ more,
       PatchBlocks.range_exists {| PatchBlocks._blocks := blocks ++ more |}
         (JInt start) (JInt end_) = Ok true
       ↔ PatchBlocks.range_exists {| PatchBlocks._blocks := blocks |}
           (JInt start) (JInt end_) = Ok true
         ∨ PatchBlocks.range_exists {| PatchBlocks._blocks := more |}
             (JInt start) (JInt end_) = Ok true).
Proof.
  intros Hperm. rewrite !range_exists_int. cbn [PatchBlocks._blocks]. split.
  - f_equal. apply bool_decide_ext. unfold nested.
    split; intros (r & Hr & ?); exists r; split; try done;
      [by rewrite <- Hperm|by rewrite Hperm].
  - intros more. rewrite !range_exists_int. cbn [PatchBlocks._blocks].
    assert (∀ b : bool, Ok b = Ok true ↔ b = true) as Hb
      by (intros b; split; [by intros [= ->]|by intros ->]).
    rewrite !Hb, !bool_decide_eq_true. unfold nested. split.
    + intros (r & [Hr|Hr]%elem_of_app & ?); [left|right]; by exists r.
    + intros [(r & Hr & ?)|(r & Hr & ?)]; exists r; rewrite elem_of_app; auto.
Qed.

Lemma range_exists_order_irrelevant_witness :
  PatchBlocks.range_exists {| PatchBlocks._blocks := [(1, 3); (10, 500)] |}
    (JInt 12) (JInt 40)
  = PatchBlocks.range_exists {| PatchBlocks._blocks := [(10, 500); (1, 3)] |}
      (JInt 12) (JInt 40).
Proof.
  apply (proj1 (range_exists_order_irrelevant [(1, 3); (10, 500)] [(10, 500); (1, 3)]
                  12 40 (Permutation_swap _ _ _))).
Defined.

(** ** snyk_results on a report of the expected shape *)

Lemma gen_app_yield_all {A} (l1 l2 : list A) :
  gen_app (yield_all l1) (yield_all l2) = yield_all (l1 ++ l2).
Proof. induction l1 as [|a l1 IH]; simpl; [done|]. by rewrite IH. Qed.

Lemma for_in_yield_all {A} (items : list json) (body : json -> gen A) (xss : list (list A)) :
  Forall2 (fun item xs => body item = yield_all xs) items xss ->
  foldr (fun x rest => gen_app (body x) rest) Stop items = yield_all (concat xss).
Proof.
  induction 1 as [|item xs items xss Hbody _ IH]; simpl; [done|].
  by rewrite Hbody, IH, gen_app_yield_all.
Qed.

Lemma yield_location_reads location f :
  reads_location location f -> yield_location location = Yield f Stop.
Proof.
  intros (physical & artifact & region & Hp & Ha & Hu & Hr & Hs & He).
  unfold yield_location, location_finding, subscript, evaluated. simpl.
  rewrite Hp. simpl. rewrite Ha, Hr. simpl. rewrite Hu, Hs, He. simpl.
  by destruct f as [? [? ?]].
Qed.

Lemma for_in_locations result fs :
  reads_result result fs ->
  for_in result.["locations"] yield_location = yield_all fs.
Proof.
  intros (locations & Hl & Hfs).
  unfold for_in, subscript, evaluated. simpl. rewrite Hl. simpl. clear Hl.
  induction Hfs as [|location f locations fs Hf _ IH]; simpl; [done|].
  by rewrite (yield_location_reads _ _ Hf), IH.
Qed.

Lemma for_in_results run fss :
  reads_run run fss ->
  for_in run.["results"] (fun result => for_in result.["locations"] yield_location)
  = yield_all (concat fss).
Proof.
  intros (results & Hr & Hfss).
  unfold for_in at 1. unfold subscript, evaluated. simpl. rewrite Hr. simpl.
  apply for_in_yield_all.
  eapply Forall2_impl; [done|]. intros result fs. apply for_in_locations.
Qed.

Lemma snyk_results_reads report fsss :
  reads_report report fsss ->
  snyk_results report = yield_all (concat (concat fsss)).
Proof.
  intros (runs & Hr & Hfsss).
  unfold snyk_results. unfold for_in at 1. unfold subscript, evaluated. simpl.
  rewrite Hr. simpl.
  rewrite (for_in_yield_all runs _ ((fun fss => concat fss) <$> fsss)).
  - f_equal. clear. induction fsss as [|fss fsss IH]; [done|].
    rewrite fmap_cons. simpl. by rewrite concat_app, IH.
  - apply Forall2_fmap_r.
    eapply Forall2_impl; [done|]. intros run fss. apply for_in_results.
Qed.

(** X11.  On a report of the expected shape (runs, their results, their
    locations, each location with its uri, startLine and endLine; other
    keys are ignored), [snyk_results] yields one finding per location, run
    after run, result after result, location after location, and then
    stops without raising. *)
Theorem snyk_results_flattens (report : json) (fsss : list (list (list finding))) :
  reads_report report fsss ->
  snyk_results report = yield_all (concat (concat fsss)).
Proof. apply snyk_results_reads. Qed.

Lemma snyk_results_flattens_witness :
  snyk_results
    (JObj [("version", JStr "2.1.0");
           ("runs",
            JArr [JObj [("tool", JNull);
                        ("results",
                         JArr [JObj [("ruleId", JStr "r1");
                                     ("locations", JArr [location_of ("a.py", (1, 2))])];
                               JObj [("locations", JArr [])]])];
                  JObj [("results",
                         JArr [JObj [("locations",
                                      JArr [location_of ("b.py", (3, 4));
                                            location_of ("a.py", (5, 6))])]])]])])
  = yield_all (concat (concat
      [[[as_yielded ("a.py", (1, 2))]; []];
       [[as_yielded ("b.py", (3, 4)); as_yielded ("a.py", (5, 6))]]])).
Proof.
  apply snyk_results_flattens.
  assert (∀ f, reads_location (location_of f) (as_yielded f)) as Hloc.
  { intros f. by eexists _, _, _. }
  eexists. split; [reflexivity|].
  repeat first [apply Forall2_nil_2 | apply Forall2_cons_2 | apply Hloc
               | (eexists; split; [reflexivity|])].
Defined.

Lemma elem_of_concat {A} (x : A) (ls : list (list A)) :
  x ∈ concat ls ↔ ∃ l, x ∈ l ∧ l ∈ ls.
Proof.
  induction ls as [|l' ls IH]; simpl.
  - split; [by intros ?%elem_of_nil|by intros (l & _ & ?%elem_of_nil)].
  - rewrite elem_of_app, IH. split.
    + intros [?|(l & ? & ?)]; [exists l'; split; [done|left]|exists l; split; [done|by right]].
    + intros (l & Hx & [->|?]%elem_of_cons); [by left|right; by exists l].
Qed.

(** X12.  On a report of the expected shape whose findings are findings of
    the data model (string path, integer lines), the loop of [main] returns
    a boolean, and that boolean is the conjunction over all the locations
    of all the results of all the runs: [True] exactly when each of them
    has its file in the changeset and its range contained. *)
Theorem verdict_is_conjunction (cs : gmap string PatchBlocks.t) (report : json)
    (fsss : list (list (list Finding))) :
  reads_report report
    ((fun fss : list (list Finding) =>
        (fun fs : list Finding => as_yielded <$> fs) <$> fss) <$> fsss) ->
  (main_loop cs (snyk_results report) = Ok true
   ↔ ∀ fss fs f, fss ∈ fsss -> fs ∈ fss -> f ∈ fs -> passes cs f)
  ∧ (main_loop cs (snyk_results report) = Ok false
     ↔ ∃ fss fs f, fss ∈ fsss ∧ fs ∈ fss ∧ f ∈ fs ∧ ¬ passes cs f).
Proof.
  intros Hreads. rewrite (snyk_results_reads _ _ Hreads).
  assert (concat (concat ((fun fss : list (list Finding) =>
            (fun fs : list Finding => as_yielded <$> fs) <$> fss) <$> fsss))
          = as_yielded <$> concat (concat fsss)) as ->.
  { clear. induction fsss as [|fss fsss IH]; [done|].
    rewrite fmap_cons. simpl. rewrite !concat_app, IH, fmap_app. f_equal.
    clear IH. induction fss as [|fs fss IH]; [done|].
    rewrite fmap_cons. simpl. by rewrite IH, fmap_app. }
  rewrite main_loop_all_yielded.
  assert (Forall (passes cs) (concat (concat fsss))
          ↔ ∀ fss fs f, fss ∈ fsss -> fs ∈ fss -> f ∈ fs -> passes cs f) as Hall.
  { rewrite Forall_forall. split.
    - intros H fss fs f Hfss Hfs Hf. apply H.
      apply elem_of_concat. exists fs. split; [done|].
      apply elem_of_concat. by exists fss.
    - intros H f (fs & Hf & (fss & Hfs & Hfss)%elem_of_concat)%elem_of_concat.
      by eapply H. }
  split.
  - rewrite <- Hall. split; [intros [= H]; by apply bool_decide_eq_true in H|].
    intros H. by rewrite bool_decide_eq_true_2.
  - split.
    + intros [= H%bool_decide_eq_false].
      apply not_Forall_Exists in H; [|apply _].
      apply Exists_exists in H
        as (f & (fs & Hf & (fss & Hfs & Hfss)%elem_of_concat)%elem_of_concat & Hnot).
      by exists fss, fs, f.
    + intros (fss & fs & f & Hfss & Hfs & Hf & Hnot).
      rewrite bool_decide_eq_false_2; [done|].
      rewrite Hall. intros H. by eapply Hnot, H.
Qed.

Lemma verdict_is_conjunction_witness :
  main_loop (commit_files one_file) (snyk_results two_runs) = Ok false.
Proof.
  assert (reads_report two_runs
            ((fun fss : list (list Finding) =>
                (fun fs : list Finding => as_yielded <$> fs) <$> fss)
               <$> [[[("a.py", (2, 3))]]; [[("a.py", (4, 9))]]])) as Hreads.
  { cbn. eexists. split; [reflexivity|].
    repeat first [ apply Forall2_nil_2 | apply Forall2_cons_2
                 | (eexists; split; [reflexivity|])
                 | (by eexists _, _, _) ]. }
  apply (proj2 (proj2 (verdict_is_conjunction (commit_files one_file) two_runs
                         [[[("a.py", (2, 3))]]; [[("a.py", (4, 9))]]] Hreads))).
  exists [[("a.py", (4, 9))]], [("a.py", (4, 9))], ("a.py", (4, 9)).
  split_and!; [right; left|left|left|].
  intros (blocks & Hcs & r & Hr & Hlo & Hhi).
  change (commit_files one_file !! "a.py" = Some blocks) in Hcs.
  rewrite one_file_blocks in Hcs. simplify_eq/=.
  repeat (apply elem_of_cons in Hr as [->|Hr]; [simpl in *; lia|]).
  by apply elem_of_nil in Hr.
Defined.

(** X13.  When the value of ["runs"] is not a list: an empty string and an
    empty object are iterated as nothing, so the report yields no finding
    and the loop returns [True] for every changeset; any other value aborts
    the check with [TypeError] (a string that is not empty and an object
    that is not empty at the subscript of their first item, the other
    values at the iteration). *)
Theorem runs_that_is_not_a_list (cs : gmap string PatchBlocks.t) (report runs : json) :
  getitem report "runs" = Ok runs ->
  match runs with
  | JArr _ => True
  | JStr EmptyString | JObj [] => main_loop cs (snyk_results report) = Ok true
  | _ => main_loop cs (snyk_results report) = Raise TypeError
  end.
Proof.
  intros Hruns. unfold snyk_results, for_in, subscript, evaluated. simpl.
  rewrite Hruns. simpl.
  destruct runs as [| | | |[|c s]|items|[|[k v] items]]; simpl; done.
Qed.

Lemma runs_that_is_not_a_list_witness :
  main_loop (commit_files one_file) (snyk_results (JObj [("runs", JStr "")])) = Ok true.
Proof.
  apply (runs_that_is_not_a_list (commit_files one_file)
           (JObj [("runs", JStr "")]) (JStr "")).
  reflexivity.
Defined.

(** ** The changeset *)

Lemma foldl_commit_files (fs : list file) (d : gmap string PatchBlocks.t) (name : string) :
  foldl (fun d f =>
           match patch f with
           | Some p => <[filename f := PatchBlocks.__init__ p]> d
           | None => d
           end) d fs !! name
  = match last (omap (fun f => if decide (filename f = name) then patch f else None) fs) with
    | Some p => Some (PatchBlocks.__init__ p)
    | None => d !! name
    end.
Proof.
  revert d. induction fs as [|f fs IH]; intros d; [done|].
  cbn [foldl omap list_omap]. rewrite IH.
  destruct (patch f) as [p|] eqn:Hp; case_decide as Hname.
  - rewrite last_cons.
    destruct (last (omap _ fs)); [done|]. rewrite <- Hname. by rewrite lookup_insert_eq.
  - destruct (last (omap _ fs)); [done|]. by rewrite lookup_insert_ne.
  - done.
  - done.
Qed.

(** X14.  The changeset [commit_files] maps a name to the index of the
    patch of the last file of the commit that has this name and a patch:
    a file without patch adds no key and replaces nothing, and of two
    files with the same name the later one wins.  A name is not a key
    exactly when every file of that name has no patch. *)
Theorem commit_files_lookup (c : commit) (name : string) :
  commit_files c !! name = PatchBlocks.__init__ <$> last_patch c name
  ∧ (commit_files c !! name = None
     ↔ ∀ f, f ∈ files c -> filename f = name -> patch f = None).
Proof.
  unfold commit_files, last_patch. rewrite foldl_commit_files, lookup_empty.
  split; [by destruct (last _)|].
  destruct (last _) as [p|] eqn:Hlast.
  - split; [done|]. intros Hnone.
    apply last_Some_elem_of, list_elem_of_omap in Hlast as (f & Hf & Hsel).
    case_decide; [|done]. rewrite (Hnone f) in Hsel; done.
  - split; [|done]. intros _ f Hf Hname.
    apply last_None in Hlast.
    destruct (patch f) as [p|] eqn:Hp; [|done].
    assert (p ∈ omap (fun f => if decide (filename f = name) then patch f else None)
                  (files c)) as Hin.
    { apply list_elem_of_omap. exists f. split; [done|]. by rewrite decide_True. }
    rewrite Hlast in Hin. by apply elem_of_nil in Hin.
Qed.

(** X15.  A file of the commit that has no patch (a binary file, a pure
    rename) counts as absent: a finding on a name all of whose files are
    without patch makes [main] return [False], whatever the findings
    yielded before it and whatever follows. *)
Theorem finding_on_file_without_patch (c : commit) (report : json)
    (before : list Finding) (name : string) (region : json * json) (rest : gen finding) :
  snyk_results report
  = gen_app (yield_all (as_yielded <$> before)) (Yield (JStr name, region) rest) ->
  (∀ f, f ∈ files c -> filename f = name -> patch f = None) ->
  main_decide c report = Ok false.
Proof.
  intros Hreport Hfiles. unfold main_decide.
  rewrite Hreport, main_loop_app_yielded.
  destruct (bool_decide _); [|done]. simpl.
  assert (commit_files c !! name = None) as ->; [|done].
  unfold commit_files. rewrite foldl_commit_files, lookup_empty.
  destruct (last _) as [p|] eqn:Hlast; [|done].
  apply last_Some_elem_of, list_elem_of_omap in Hlast as (f & Hf & Hsel).
  case_decide; [|done]. rewrite (Hfiles f) in Hsel; done.
Qed.

Lemma finding_on_file_without_patch_witness :
  main_decide
    {| files := [{| filename := "a.py"; patch := Some two_hunks |};
                 {| filename := "logo.png"; patch := None |}] |}
    (report_of [location_of ("a.py", (2, 3)); location_of ("logo.png", (1, 1))])
  = Ok false.
Proof.
  apply (finding_on_file_without_patch _ _ [("a.py", (2, 3))] "logo.png"
           (JInt 1, JInt 1) Stop).
  - reflexivity.
  - intros f Hf Hname.
    repeat (apply elem_of_cons in Hf as [->|Hf]; [done|]). by apply elem_of_nil in Hf.
Defined.

(** X16.  The first finding that fails decides: when the report yields,
    after findings of the data model, a finding whose file is missing or
    whose range is contained in no stored range, the loop returns [False]
    whatever follows it, be it findings that pass or an exception of the
    generator. *)
Theorem failing_finding_is_false (cs : gmap string PatchBlocks.t) (report : json)
    (before : list Finding) (f : Finding) (rest : gen finding) :
  snyk_results report
  = gen_app (yield_all (as_yielded <$> before)) (Yield (as_yielded f) rest) ->
  ¬ passes cs f ->
  main_loop cs (snyk_results report) = Ok false.
Proof.
  intros -> Hf. rewrite main_loop_app_yielded.
  destruct (bool_decide _); [|done].
  by rewrite main_loop_yielded, bool_decide_eq_false_2.
Qed.

Lemma failing_finding_is_false_witness :
  main_loop (commit_files one_file)
    (snyk_results (report_of [location_of ("a.py", (2, 3));
                              location_of ("a.py", (4, 9));
                              JNull]))
  = Ok false.
Proof.
  apply (failing_finding_is_false (commit_files one_file) _
           [("a.py", (2, 3))] ("a.py", (4, 9)) (Throw TypeError)).
  - reflexivity.
  - intros (blocks & Hcs & r & Hr & Hlo & Hhi).
    change (commit_files one_file !! "a.py" = Some blocks) in Hcs.
    rewrite one_file_blocks in Hcs. simplify_eq/=.
    repeat (apply elem_of_cons in Hr as [->|Hr]; [simpl in *; lia|]).
    by apply elem_of_nil in Hr.
Defined.

(** ** from_uri *)

Section from_uri.
Import GithubRepository.

Lemma split_not_nil sep s : split sep s ≠ [].
Proof.
  destruct s as [|c s]; simpl; [done|].
  case_decide; [done|]. by destruct (split sep s).
Qed.

(** The first token and what follows the first separator. *)
Lemma split_cons_inv sep s token tokens :
  split sep s = token :: tokens ->
  (sep ∉ token)
  ∧ ((tokens = [] ∧ s = token)
     ∨ ∃ s', s = token ++ sep :: s' ∧ split sep s' = tokens).
Proof.
  revert token tokens. induction s as [|c s IH]; intros token tokens; simpl.
  - intros [= <- <-]. split; [apply not_elem_of_nil|by left].
  - case_decide as Hc.
    + intros [= <- <-]. split; [apply not_elem_of_nil|]. right. exists s. by subst.
    + destruct (split sep s) as [|token' tokens'] eqn:Hs; [by apply split_not_nil in Hs|].
      intros [= <- <-]. destruct (IH _ _ eq_refl) as [Hnot Hcases].
      split; [by apply not_elem_of_cons|].
      destruct Hcases as [[-> ->]|(s' & -> & Hs')]; [by left|right].
      by exists s'.
Qed.

Lemma split_app sep token s :
  sep ∉ token -> split sep (token ++ sep :: s) = token :: split sep s.
Proof.
  induction token as [|c token IH]; simpl; intros Hnot.
  - by rewrite decide_True.
  - apply not_elem_of_cons in Hnot as [Hc Hnot].
    rewrite decide_False by done. by rewrite IH.
Qed.

Lemma split_last sep token : sep ∉ token -> split sep token = [token].
Proof.
  induction token as [|c token IH]; simpl; intros Hnot; [done|].
  apply not_elem_of_cons in Hnot as [Hc Hnot].
  rewrite decide_False by done. by rewrite IH.
Qed.
End from_uri.

(** X17.  [from_uri], whatever path [urlparse] finds in the URL: it
    returns [(owner, repo)] exactly when that path is [first/owner/repo] or
    [first/owner/repo/...], where [first] (empty for a path that begins
    with ['/']), [owner] and [repo] contain no ['/']; nothing else is
    checked, so an empty owner or repository is accepted and what follows
    the repository is ignored.  On any other path, one with fewer than two
    ['/'], it raises [IndexError]. *)
Theorem from_uri_reads_owner_and_repo (urlparse_path : string -> list ascii)
    (github_uri : string) (owner repo : list ascii) :
  (GithubRepository.from_uri urlparse_path github_uri = Ok (owner, repo)
   ↔ ∃ first rest,
       urlparse_path github_uri = first ++ "/"%char :: owner ++ "/"%char :: repo ++ rest
       ∧ ("/"%char ∉ first) ∧ ("/"%char ∉ owner) ∧ ("/"%char ∉ repo)
       ∧ (rest = [] ∨ ∃ rest', rest = "/"%char :: rest'))
  ∧ ((∀ owner' repo',
        GithubRepository.from_uri urlparse_path github_uri ≠ Ok (owner', repo'))
     -> GithubRepository.from_uri urlparse_path github_uri
        = Raise (OtherError "IndexError")).
Proof.
  unfold GithubRepository.from_uri, GithubRepository.from_path.
  generalize (urlparse_path github_uri) as path. intros path.
  split; [split|].
  - destruct (GithubRepository.split "/" path) as [|first [|owner' [|repo' tokens]]] eqn:Hs;
      simpl; try done.
    intros [= -> ->].
    apply split_cons_inv in Hs as [Hfirst [[? _]|(s1 & -> & Hs)]]; [done|].
    apply split_cons_inv in Hs as [Howner [[? _]|(s2 & -> & Hs)]]; [done|].
    apply split_cons_inv in Hs as [Hrepo Hrest].
    exists first. destruct Hrest as [[-> ->]|(s3 & -> & _)].
    + exists []. rewrite app_nil_r. split_and!; try done. by left.
    + exists ("/"%char :: s3). split_and!; try done. right. by eexists.
  - intros (first & rest & -> & Hfirst & Howner & Hrepo & Hrest).
    rewrite split_app by done. rewrite split_app by done.
    destruct Hrest as [->|[rest' ->]].
    + rewrite app_nil_r. by rewrite split_last.
    + by rewrite split_app.
  - intros Hnot.
    destruct (GithubRepository.split "/" path) as [|first [|owner' [|repo' tokens]]];
      simpl in *; try done.
    by destruct (Hnot owner' repo').
Qed.

Lemma from_uri_reads_owner_and_repo_witness :
  GithubRepository.from_uri (fun _ => list_ascii_of_string "/OWNER/REPO/tree/main")
    "https://github.com/OWNER/REPO/tree/main"
  = Ok (list_ascii_of_string "OWNER", list_ascii_of_string "REPO").
Proof.
  apply (proj1 (from_uri_reads_owner_and_repo
                  (fun _ => list_ascii_of_string "/OWNER/REPO/tree/main")
                  "https://github.com/OWNER/REPO/tree/main"
                  (list_ascii_of_string "OWNER") (list_ascii_of_string "REPO"))).
  exists [], (list_ascii_of_string "/tree/main").
  split_and!; [reflexivity|apply not_elem_of_nil|..|right; by eexists];
    intros H; repeat (apply elem_of_cons in H as [H|H]; [discriminate H|]);
    by apply elem_of_nil in H.
Defined.
